(** * optionstat: profit/loss statistics of a multi-leg option strategy

    Shallow embedding of [optionstat/optionstat.py] (classes [Leg] and
    [Optionstat]) and the properties of its natural-language specification.

    Numbers.  Strikes, premiums, underlying prices and profits are Python
    floats in the source; they are modelled by exact rationals [Q], compared
    with [Qeq].  [position] and [contract_size] are documented as [int] and
    are modelled by [Z].  The constant [PRICE_RANGE_PCT = 0.1] is the exact
    decimal [1/10].  The two infinite floats that [stat] can store are
    separate constructors of [pyfloat].  Comparisons and equality tests of
    profits are thus decided on exact values: on inputs that binary floats
    do not represent exactly, a run of the program can differ where a
    rounded profit is compared with zero or with another rounded profit.

    Exceptions.  Every operation that may raise returns a [result]; an
    exception records the source line that raises it, as a Python traceback
    does.  Methods that may mutate the object return the object after the
    call together with the result. *)

From Stdlib Require Import QArith Qabs Qround ZArith List String Bool Lia Lqa.
From Stdlib Require Import Permutation Sorted Morphisms SetoidList.
Import ListNotations.

Local Open Scope Q_scope.

(** ** Python exceptions and results *)

Inductive exn : Type :=
| ZeroDivisionError (line : nat)
| IndexError (line : nat)
| ValueError (line : nat).

Inductive result (A : Type) : Type :=
| OK (a : A)
| Raise (e : exn).

Arguments OK {A} a.
Arguments Raise {A} e.

Definition bind {A B : Type} (m : result A) (k : A -> result B) : result B :=
  match m with
  | OK a => k a
  | Raise e => Raise e
  end.

Notation "x <- m ;; k" := (bind m (fun x => k))
  (at level 61, m at next level, right associativity).

(** [[f(x) for x in l]]: the comprehension stops at the first exception. *)
Fixpoint mapM {A B : Type} (f : A -> result B) (l : list A) : result (list B) :=
  match l with
  | [] => OK []
  | x :: l' => y <- f x ;; ys <- mapM f l' ;; OK (y :: ys)
  end.

(** [for i in idx: acc = body(i, acc)]. *)
Fixpoint for_range {A : Type} (body : nat -> A -> result A) (idx : list nat)
  (acc : A) : result A :=
  match idx with
  | [] => OK acc
  | i :: idx' => acc' <- body i acc ;; for_range body idx' acc'
  end.

(** ** Python built-ins on numbers and lists *)

Definition Qltb (x y : Q) : bool := negb (Qle_bool y x).

(** [x / y] at source line [line]. *)
Definition pydiv (line : nat) (x y : Q) : result Q :=
  if Qeq_bool y 0 then Raise (ZeroDivisionError line) else OK (x / y).

(** [max(a, b)] and [min(a, b)]: the first argument is kept unless the second
    is strictly better. *)
Definition pymax (a b : Q) : Q := if Qltb a b then b else a.
Definition pymin (a b : Q) : Q := if Qltb b a then b else a.

(** [max(l)] and [min(l)] at source line [line]. *)
Definition max_list (line : nat) (l : list Q) : result Q :=
  match l with
  | [] => Raise (ValueError line)
  | x :: l' => OK (fold_left pymax l' x)
  end.

Definition min_list (line : nat) (l : list Q) : result Q :=
  match l with
  | [] => Raise (ValueError line)
  | x :: l' => OK (fold_left pymin l' x)
  end.

(** [sum(l)]: starts from [0] and adds from the left. *)
Definition sum (l : list Q) : Q := fold_left Qplus l 0.

(** [int(x)]: truncation toward zero. *)
Definition int (x : Q) : Z := Z.quot (Qnum x) (Zpos (Qden x)).

(** [l[i]] at source line [line]; a negative index counts from the end. *)
Definition getitem (line : nat) (l : list Q) (i : Z) : result Q :=
  let j := if (i <? 0)%Z then (Z.of_nat (length l) + i)%Z else i in
  if (j <? 0)%Z then Raise (IndexError line)
  else match nth_error l (Z.to_nat j) with
       | Some x => OK x
       | None => Raise (IndexError line)
       end.

(** [l.sort()]: a stable ascending sort. *)
Fixpoint insert (x : Q) (l : list Q) : list Q :=
  match l with
  | [] => [x]
  | y :: l' => if Qltb y x then y :: insert x l' else x :: y :: l'
  end.

Definition sort (l : list Q) : list Q := fold_right insert [] l.

(** [range(1, n)]. *)
Definition range1 (n : nat) : list nat := seq 1 (n - 1).

(** [float('inf')], [float('-inf')] and the finite values. *)
Inductive pyfloat : Type :=
| Fin (q : Q)
| Inf
| NegInf.

Definition PRICE_RANGE_PCT : Q := 1 # 10.

(** ** class Leg *)

Module Leg.

Record t : Type := __init__ {
  _strike : Q;
  _premium : Q;
  _position : Z;
  _option_type : string;
  _contract_size : Z
}.

(** [Leg.get_profit] (lines 29-42). *)
Definition get_profit (self : t) (underlying : Q) : result Q :=
  let price := 0 in
  let price :=
    if String.eqb (_option_type self) "Call" then underlying - _strike self
    else if String.eqb (_option_type self) "Put" then _strike self - underlying
    else price in
  profit <- pydiv 41 ((pymax price 0 - _premium self)
                        * inject_Z (Z.abs (_position self)))
                     (inject_Z (_position self)) ;;
  OK (profit * inject_Z (Z.abs (_position self))
        * inject_Z (_contract_size self)).

End Leg.

(** ** class Optionstat *)

(** The dictionary returned by [stat]. *)
Record Stat : Type := {
  legs : nat;
  max_profit : pyfloat;
  max_loss : pyfloat;
  break_even : list Q
}.

Module Optionstat.

Record t : Type := mk {
  _option_trades : list Leg.t;
  _strike_prices : list Q;
  _contract_size : Z
}.

Definition __init__ (contract_size : Z) : t :=
  {| _option_trades := []; _strike_prices := []; _contract_size := contract_size |}.

(** [Optionstat.add_trade] (lines 57-68). *)
Definition add_trade (self : t) (strike premium : Q) (position : Z)
  (option_type : string) : t * result unit :=
  let trade := Leg.__init__ strike premium position option_type
                            (_contract_size self) in
  ({| _option_trades := _option_trades self ++ [trade];
      _strike_prices := _strike_prices self ++ [strike];
      _contract_size := _contract_size self |}, OK tt).

(** [Optionstat._get_price_range] (lines 70-78). *)
Definition _get_price_range (self : t) : result (Z * Z) :=
  m <- min_list 76 (_strike_prices self) ;;
  let price_range_min := m * (1 - PRICE_RANGE_PCT) in
  M <- max_list 77 (_strike_prices self) ;;
  let price_range_max := M * (1 + PRICE_RANGE_PCT) in
  OK (int price_range_min, int price_range_max).

(** [sum([trade.get_profit(underlying) for trade in self._option_trades])],
    the aggregate profit of lines 91 and 123. *)
Definition total_profit (self : t) (underlying : Q) : result Q :=
  ps <- mapM (fun trade => Leg.get_profit trade underlying)
             (_option_trades self) ;;
  OK (sum ps).

(** Line 122: the anchor prices, from the sorted strikes. *)
Definition underlying_prices (strike_prices : list Q) : result (list Q) :=
  last <- getitem 122 strike_prices (-1) ;;
  OK ([0] ++ strike_prices ++ [last + 1]).

(** Lines 141-151: one iteration of the break-even loop. *)
Definition break_even_body (underlying_prices prices : list Q) (i : nat)
  (break_even : list Q) : result (list Q) :=
  let i' := Z.of_nat i in
  pi <- getitem 142 prices i' ;;
  pj <- getitem 142 prices (i' - 1) ;;
  if Qeq_bool pi pj then OK break_even
  else
    si <- pydiv 144 pi (Qabs pi) ;;
    sj <- pydiv 144 pj (Qabs pj) ;;
    if Qeq_bool si sj then OK break_even
    else
      ui <- getitem 148 underlying_prices i' ;;
      uj <- getitem 148 underlying_prices (i' - 1) ;;
      gradient <- pydiv 148 (pi - pj) (ui - uj) ;;
      let intercept := pi - gradient * ui in
      root <- pydiv 151 (- intercept) gradient ;;
      OK (break_even ++ [root]).

(** Lines 122-153: [stat] after the in-place sort, on the sorted strikes. *)
Definition stat_body (self : t) : result Stat :=
  underlying_prices <- underlying_prices (_strike_prices self) ;;
  prices <- mapM (total_profit self) underlying_prices ;;
  let legs := length (_strike_prices self) in
  last <- getitem 128 prices (-1) ;;
  prev <- getitem 128 prices (-2) ;;
  max_profit <- (if Qltb prev last then OK Inf
                 else m <- max_list 131 prices ;; OK (Fin m)) ;;
  last <- getitem 134 prices (-1) ;;
  prev <- getitem 134 prices (-2) ;;
  max_loss <- (if Qltb last prev then OK NegInf
               else m <- min_list 137 prices ;; OK (Fin m)) ;;
  break_even <- for_range (break_even_body underlying_prices prices)
                          (range1 (length prices)) [] ;;
  OK {| legs := legs; max_profit := max_profit; max_loss := max_loss;
        break_even := break_even |}.

(** [Optionstat.stat] (lines 111-153).  Line 121 sorts [_strike_prices] in
    place, so the object after the call differs from the one before. *)
Definition stat (self : t) : t * result Stat :=
  let self := {| _option_trades := _option_trades self;
                 _strike_prices := sort (_strike_prices self);
                 _contract_size := _contract_size self |} in
  (self, stat_body self).

(** The objects a program can build: [Optionstat(contract_size)] followed by
    calls of [add_trade] and [stat]. *)
Inductive reachable : t -> Prop :=
| reach_init contract_size : reachable (__init__ contract_size)
| reach_add self strike premium position option_type :
    reachable self ->
    reachable (fst (add_trade self strike premium position option_type))
| reach_stat self : reachable self -> reachable (fst (stat self)).

End Optionstat.

(** ** Notions used in the statements *)

(** The intrinsic value of a leg: [max(price, 0)] of lines 35-40. *)
Definition intrinsic (leg : Leg.t) (underlying : Q) : Q :=
  pymax (if String.eqb (Leg._option_type leg) "Call"
         then underlying - Leg._strike leg
         else if String.eqb (Leg._option_type leg) "Put"
              then Leg._strike leg - underlying
              else 0) 0.

(** The profit of a leg as a number: the value of [Leg.get_profit] when the
    position is not zero. *)
Definition payoff (leg : Leg.t) (underlying : Q) : Q :=
  (intrinsic leg underlying - Leg._premium leg)
    * inject_Z (Z.abs (Leg._position leg)) / inject_Z (Leg._position leg)
    * inject_Z (Z.abs (Leg._position leg)) * inject_Z (Leg._contract_size leg).

(** A function is affine on [[a, b]] when its value at every point of the
    interval is the interpolation of its values at the two ends. *)
Definition affine_on (a b : Q) (f : Q -> Q) : Prop :=
  forall u, a <= u <= b -> (b - a) * f u == (b - u) * f a + (u - a) * f b.

(** Every leg can be evaluated: no position is zero. *)
Definition tradable (self : Optionstat.t) : Prop :=
  Forall (fun leg => Leg._position leg <> 0%Z) (Optionstat._option_trades self).

(** The value of [total_profit] when every leg can be evaluated. *)
Definition total (self : Optionstat.t) (underlying : Q) : Q :=
  sum (map (fun leg => payoff leg underlying) (Optionstat._option_trades self)).

(** What the iteration does with the anchors [(uj, pj)] and [(ui, pi)]:
    it skips the pair, appends a root, or raises. *)
Definition segment (uj ui pj pi : Q) : result (option Q) :=
  if Qeq_bool pi pj then OK None
  else
    si <- pydiv 144 pi (Qabs pi) ;;
    sj <- pydiv 144 pj (Qabs pj) ;;
    if Qeq_bool si sj then OK None
    else
      gradient <- pydiv 148 (pi - pj) (ui - uj) ;;
      let intercept := pi - gradient * ui in
      root <- pydiv 151 (- intercept) gradient ;;
      OK (Some root).

(** The iteration on the pair of anchors [j] and [j + 1] of the anchor
    prices [U] and their profits [P]. *)
Definition seg (U P : list Q) (j : nat) : result (option Q) :=
  segment (nth j U 0) (nth (S j) U 0) (nth j P 0) (nth (S j) P 0).

(** The list of break-even points after an iteration. *)
Definition after_segment (acc : list Q) (s : result (option Q)) : result (list Q) :=
  match s with
  | OK None => OK acc
  | OK (Some r) => OK (acc ++ [r])
  | Raise e => Raise e
  end.

(** The loop over the pairs [(j, j + 1)] for [j] in [js]. *)
Fixpoint scan (U P : list Q) (js : list nat) (acc : list Q) : result (list Q) :=
  match js with
  | [] => OK acc
  | j :: js' => acc' <- after_segment acc (seg U P j) ;; scan U P js' acc'
  end.

(** The root, if any, that the pair [(j, j + 1)] contributes. *)
Definition roots (U P : list Q) (j : nat) : list Q :=
  match seg U P j with
  | OK (Some r) => [r]
  | _ => []
  end.

(** [m] is a greatest (least) element of [l]. *)
Definition is_max (m : Q) (l : list Q) : Prop :=
  In m l /\ Forall (fun p => p <= m) l.

Definition is_min (m : Q) (l : list Q) : Prop :=
  In m l /\ Forall (fun p => m <= p) l.

(** Lines 121-122 of [stat]: the anchor prices of the sorted strikes. *)
Definition anchor_prices (self : Optionstat.t) : result (list Q) :=
  Optionstat.underlying_prices (sort (Optionstat._strike_prices self)).

(** Lines 121-124 of [stat]: the aggregate profits at the anchor prices. *)
Definition anchor_profits (self : Optionstat.t) : result (list Q) :=
  underlying_prices <- anchor_prices self ;;
  mapM (Optionstat.total_profit self) underlying_prices.

(** The anchor prices built from the sorted strikes [S]. *)
Definition anchors (S : list Q) : list Q := [0] ++ S ++ [last S 0 + 1].

(** Some strike occurs twice. *)
Fixpoint has_duplicates (l : list Q) : bool :=
  match l with
  | [] => false
  | x :: l' => existsb (Qeq_bool x) l' || has_duplicates l'
  end.

(** ** Strategies used as examples *)

(** Scenario A of the specification: a single short call. *)
Definition short_call : Optionstat.t :=
  fst (Optionstat.add_trade (Optionstat.__init__ 100) 100 2 (-1) "Call").

(** Scenario C: a bull call spread. *)
Definition bull_call_spread : Optionstat.t :=
  let s := fst (Optionstat.add_trade (Optionstat.__init__ 100) 100 5 1 "Call") in
  fst (Optionstat.add_trade s 110 2 (-1) "Call").

(** The same spread with the legs entered in the other order. *)
Definition spread_high_first : Optionstat.t :=
  let s := fst (Optionstat.add_trade (Optionstat.__init__ 100) 110 2 (-1) "Call") in
  fst (Optionstat.add_trade s 100 5 1 "Call").

(** A long call whose profit is exactly zero at the last anchor. *)
Definition long_call_premium_1 : Optionstat.t :=
  fst (Optionstat.add_trade (Optionstat.__init__ 100) 100 1 1 "Call").

(** A straddle: two legs at the same strike. *)
Definition straddle : Optionstat.t :=
  let s := fst (Optionstat.add_trade (Optionstat.__init__ 100) 100 2 1 "Call") in
  fst (Optionstat.add_trade s 100 3 1 "Put").

(** Two legs with negative strikes. *)
Definition negative_strikes : Optionstat.t :=
  let s := fst (Optionstat.add_trade (Optionstat.__init__ 100) (-5) (1 # 2) 1 "Call") in
  fst (Optionstat.add_trade s (-10) 0 1 "Put").

(** Three legs at the strikes 90, 100 and 110. *)
Definition three_strikes : Optionstat.t :=
  let s := fst (Optionstat.add_trade (Optionstat.__init__ 100) 90 1 1 "Call") in
  let s := fst (Optionstat.add_trade s 100 1 (-2) "Call") in
  fst (Optionstat.add_trade s 110 1 1 "Call").

(** One leg at the strike 105. *)
Definition strike_105 : Optionstat.t :=
  fst (Optionstat.add_trade (Optionstat.__init__ 100) 105 1 1 "Call").

(** A leg whose option type is neither ["Call"] nor ["Put"]. *)
Definition unknown_type_leg : Leg.t := Leg.__init__ 100 2 1 "Straddle" 100.

(** ** Notions used in the further properties *)

(** The leg with the opposite position: the other side of the same trade. *)
Definition opposite (leg : Leg.t) : Leg.t :=
  Leg.__init__ (Leg._strike leg) (Leg._premium leg) (- Leg._position leg)
               (Leg._option_type leg) (Leg._contract_size leg).

(** [n] calls bought and [n] puts sold at the same strike. *)
Definition synthetic_long (contract_size : Z) (strike call_premium put_premium : Q)
  (n : Z) : Optionstat.t :=
  let s := fst (Optionstat.add_trade (Optionstat.__init__ contract_size)
                                     strike call_premium n "Call") in
  fst (Optionstat.add_trade s strike put_premium (- n) "Put").

(** Two adjacent anchor profits on which the sign test of line 144 divides
    by zero: they differ and one of them is zero. *)
Definition zero_pair (p q : Q) : Prop := ~ p == q /\ (p == 0 \/ q == 0).

(** * Properties *)

(** ** Comparisons, division and indexing *)

Lemma Qltb_lt (x y : Q) : Qltb x y = true <-> x < y.
Proof.
  unfold Qltb. rewrite negb_true_iff, <- not_true_iff_false, Qle_bool_iff.
  split; [apply Qnot_le_lt | apply Qlt_not_le].
Qed.

Lemma Qltb_ge (x y : Q) : Qltb x y = false <-> y <= x.
Proof.
  unfold Qltb. rewrite negb_false_iff. apply Qle_bool_iff.
Qed.

Lemma Qeq_bool_false (x y : Q) : Qeq_bool x y = false <-> ~ x == y.
Proof.
  rewrite <- not_true_iff_false, Qeq_bool_iff. tauto.
Qed.

Lemma pydiv_ok (line : nat) (x y : Q) : ~ y == 0 -> pydiv line x y = OK (x / y).
Proof.
  intros H. unfold pydiv. apply Qeq_bool_false in H. now rewrite H.
Qed.

Lemma pydiv_zero (line : nat) (x y : Q) :
  y == 0 -> pydiv line x y = Raise (ZeroDivisionError line).
Proof.
  intros H. unfold pydiv. apply Qeq_bool_iff in H. now rewrite H.
Qed.

Lemma getitem_nat (line : nat) (l : list Q) (i : nat) (x : Q) :
  nth_error l i = Some x -> getitem line l (Z.of_nat i) = OK x.
Proof.
  intros H. unfold getitem.
  destruct (Z.ltb_spec (Z.of_nat i) 0); [lia|].
  destruct (Z.ltb_spec (Z.of_nat i) 0); [lia|].
  now rewrite Nat2Z.id, H.
Qed.

Lemma getitem_pred (line : nat) (l : list Q) (i : nat) (x : Q) :
  nth_error l i = Some x -> getitem line l (Z.of_nat (S i) - 1) = OK x.
Proof.
  intros H. replace (Z.of_nat (S i) - 1)%Z with (Z.of_nat i) by lia.
  now apply getitem_nat.
Qed.

Lemma getitem_last (line : nat) (l : list Q) (x : Q) :
  getitem line (l ++ [x]) (-1) = OK x.
Proof.
  unfold getitem. cbn [Z.ltb Z.compare]. rewrite length_app. cbn [length].
  destruct (Z.ltb_spec (Z.of_nat (length l + 1) + -1) 0); [lia|].
  replace (Z.to_nat (Z.of_nat (length l + 1) + -1)) with (length l + 0)%nat by lia.
  now rewrite nth_error_app2, Nat.add_comm, Nat.add_sub by lia.
Qed.

Lemma getitem_last2 (line : nat) (l : list Q) (x y : Q) :
  getitem line (l ++ [x; y]) (-2) = OK x.
Proof.
  unfold getitem. cbn [Z.ltb Z.compare]. rewrite length_app. cbn [length].
  destruct (Z.ltb_spec (Z.of_nat (length l + 2) + -2) 0); [lia|].
  replace (Z.to_nat (Z.of_nat (length l + 2) + -2)) with (length l + 0)%nat by lia.
  now rewrite nth_error_app2, Nat.add_comm, Nat.add_sub by lia.
Qed.

Lemma getitem_nil (line : nat) (i : Z) : getitem line [] i = Raise (IndexError line).
Proof.
  unfold getitem. cbn [length Z.of_nat Z.add].
  destruct (i <? 0)%Z eqn:E; [now rewrite E|].
  rewrite E. now destruct (Z.to_nat i).
Qed.

(** A list of at least two elements ends with its last two elements. *)
Lemma last_two (l : list Q) :
  (2 <= length l)%nat -> exists l' x y, l = l' ++ [x; y].
Proof.
  intros H. destruct (exists_last (l := l)) as (l1 & y & ->).
  { intros ->. cbn in H. lia. }
  rewrite length_app in H. cbn in H.
  destruct (exists_last (l := l1)) as (l2 & x & ->).
  { intros ->. cbn in H. lia. }
  exists l2, x, y. now rewrite <- app_assoc.
Qed.

(** ** Comprehensions *)

Lemma mapM_Forall2 {A B : Type} (f : A -> result B) (l : list A) (ys : list B) :
  mapM f l = OK ys <-> Forall2 (fun x y => f x = OK y) l ys.
Proof.
  revert ys. induction l as [|x l IH]; intros ys; cbn.
  - split; [intros [= <-]; constructor | now inversion 1].
  - destruct (f x) as [y|e] eqn:Ex; cbn.
    + destruct (mapM f l) as [zs|e] eqn:El; cbn.
      * split.
        -- intros [= <-]. constructor; [assumption | now apply IH].
        -- inversion 1; subst. apply IH in H4. congruence.
      * split; [discriminate|].
        inversion 1; subst. apply IH in H4. discriminate.
    + split; [discriminate|]. inversion 1; subst. congruence.
Qed.

(** ** Sorting *)

Lemma insert_perm (x : Q) (l : list Q) : Permutation (insert x l) (x :: l).
Proof.
  induction l as [|y l IH]; cbn; [reflexivity|].
  destruct (Qltb y x); [|reflexivity].
  rewrite IH. apply perm_swap.
Qed.

Lemma sort_perm (l : list Q) : Permutation (sort l) l.
Proof.
  induction l as [|x l IH]; cbn; [reflexivity|].
  rewrite insert_perm. now constructor.
Qed.

Lemma insert_sorted (x : Q) (l : list Q) :
  StronglySorted Qle l -> StronglySorted Qle (insert x l).
Proof.
  induction 1 as [|y l Hs IH Hy]; cbn.
  - repeat constructor.
  - destruct (Qltb y x) eqn:E.
    + constructor; [assumption|].
      apply Qltb_lt in E.
      eapply Permutation_Forall; [symmetry; apply insert_perm|].
      constructor; [now apply Qlt_le_weak | assumption].
    + apply Qltb_ge in E. constructor; [now constructor|].
      constructor; [assumption|].
      eapply Forall_impl; [|exact Hy]. intros z Hz. now apply Qle_trans with y.
Qed.

Lemma sort_sorted (l : list Q) : StronglySorted Qle (sort l).
Proof.
  induction l as [|x l IH]; cbn; [constructor | now apply insert_sorted].
Qed.

Lemma length_sort (l : list Q) : length (sort l) = length l.
Proof.
  apply Permutation_length, sort_perm.
Qed.

Lemma sort_nil (l : list Q) : sort l = [] -> l = [].
Proof.
  intros H. apply Permutation_nil. rewrite <- H. apply sort_perm.
Qed.

Lemma sorted_nth_error (l : list Q) (i j : nat) (x y : Q) :
  StronglySorted Qle l -> (i <= j)%nat ->
  nth_error l i = Some x -> nth_error l j = Some y -> x <= y.
Proof.
  intros H. revert i j. induction H as [|a l Hs IH Ha]; intros [|i] [|j] Hij;
    cbn; try discriminate; try lia.
  - intros [= <-] [= <-]. apply Qle_refl.
  - intros [= <-] Hy. rewrite Forall_forall in Ha. apply Ha.
    eapply nth_error_In; eassumption.
  - apply IH. lia.
Qed.

(** ** The payoff of a leg *)

Lemma inject_Z_zero (z : Z) : inject_Z z == 0 <-> z = 0%Z.
Proof.
  unfold Qeq. cbn. lia.
Qed.

Lemma get_profit_ok (leg : Leg.t) (u : Q) :
  Leg._position leg <> 0%Z -> Leg.get_profit leg u = OK (payoff leg u).
Proof.
  intros H. unfold Leg.get_profit. rewrite pydiv_ok; [reflexivity|].
  now rewrite inject_Z_zero.
Qed.

Lemma get_profit_zero (leg : Leg.t) (u : Q) :
  Leg._position leg = 0%Z ->
  Leg.get_profit leg u = Raise (ZeroDivisionError 41).
Proof.
  intros H. unfold Leg.get_profit. rewrite pydiv_zero; [reflexivity|].
  now rewrite inject_Z_zero.
Qed.

Lemma pymax_pos (x : Q) : 0 <= x -> pymax x 0 == x.
Proof.
  intros H. unfold pymax. destruct (Qltb x 0) eqn:E; [|reflexivity].
  apply Qltb_lt in E. lra.
Qed.

Lemma pymax_neg (x : Q) : x <= 0 -> pymax x 0 == 0.
Proof.
  intros H. unfold pymax. destruct (Qltb x 0) eqn:E; [reflexivity|].
  apply Qltb_ge in E. lra.
Qed.

#[local] Instance pymax_proper : Proper (Qeq ==> Qeq ==> Qeq) pymax.
Proof.
  intros x x' Hx y y' Hy. unfold pymax.
  destruct (Qltb x y) eqn:E, (Qltb x' y') eqn:E'; try assumption;
    first [apply Qltb_lt in E | apply Qltb_ge in E];
    first [apply Qltb_lt in E' | apply Qltb_ge in E']; lra.
Qed.

#[local] Instance intrinsic_proper (leg : Leg.t) : Proper (Qeq ==> Qeq) (intrinsic leg).
Proof.
  intros u v H. unfold intrinsic.
  destruct (String.eqb _ "Call"); [now rewrite H|].
  destruct (String.eqb _ "Put"); [now rewrite H | reflexivity].
Qed.

#[local] Instance payoff_proper (leg : Leg.t) : Proper (Qeq ==> Qeq) (payoff leg).
Proof.
  intros u v H. unfold payoff. now rewrite H.
Qed.

(** The intrinsic value has its only kink at the strike. *)
Lemma intrinsic_affine (leg : Leg.t) (a b : Q) :
  a <= b -> Leg._strike leg <= a \/ b <= Leg._strike leg ->
  affine_on a b (intrinsic leg).
Proof.
  intros Hab HK u Hu. unfold intrinsic.
  destruct (String.eqb _ "Call").
  - destruct HK as [HK|HK].
    + rewrite !pymax_pos by lra. ring.
    + rewrite !pymax_neg by lra. ring.
  - destruct (String.eqb _ "Put").
    + destruct HK as [HK|HK].
      * rewrite !pymax_neg by lra. ring.
      * rewrite !pymax_pos by lra. ring.
    + rewrite !pymax_pos by lra. ring.
Qed.

Lemma payoff_affine (leg : Leg.t) (a b : Q) :
  a <= b -> Leg._strike leg <= a \/ b <= Leg._strike leg ->
  affine_on a b (payoff leg).
Proof.
  intros Hab HK u Hu. pose proof (intrinsic_affine leg a b Hab HK u Hu) as H.
  unfold payoff, Qdiv.
  set (k := / inject_Z (Leg._position leg)).
  set (A := inject_Z (Z.abs (Leg._position leg))).
  set (C := inject_Z (Leg._contract_size leg)).
  set (p := Leg._premium leg).
  transitivity ((b - a) * intrinsic leg u * (A * k * A * C)
                - (b - a) * p * (A * k * A * C)); [ring|].
  rewrite H. ring.
Qed.

(** ** The aggregate profit *)

Lemma fold_left_Qplus (l : list Q) (a : Q) :
  fold_left Qplus l a == a + sum l.
Proof.
  unfold sum. revert a. induction l as [|x l IH]; intros a; cbn.
  - ring.
  - rewrite IH, (IH (0 + x)). ring.
Qed.

Lemma sum_cons (x : Q) (l : list Q) : sum (x :: l) == x + sum l.
Proof.
  unfold sum at 1. cbn. rewrite fold_left_Qplus. ring.
Qed.

Lemma mapM_get_profit (l : list Leg.t) (u : Q) :
  (Forall (fun leg => Leg._position leg <> 0%Z) l /\
   mapM (fun trade => Leg.get_profit trade u) l
   = OK (map (fun leg => payoff leg u) l))
  \/ (~ Forall (fun leg => Leg._position leg <> 0%Z) l /\
      mapM (fun trade => Leg.get_profit trade u) l
      = Raise (ZeroDivisionError 41)).
Proof.
  induction l as [|leg l IH]; cbn.
  - left. split; [constructor | reflexivity].
  - destruct (Z.eq_dec (Leg._position leg) 0) as [E|E].
    + right. rewrite get_profit_zero by assumption. split; [|reflexivity].
      inversion 1; subst. contradiction.
    + rewrite get_profit_ok by assumption. cbn.
      destruct IH as [[HF ->]|[HF ->]]; cbn.
      * left. split; [now constructor | reflexivity].
      * right. split; [|reflexivity]. inversion 1; subst. contradiction.
Qed.

Lemma total_profit_cases (self : Optionstat.t) (u : Q) :
  (tradable self /\ Optionstat.total_profit self u = OK (total self u))
  \/ (~ tradable self /\
      Optionstat.total_profit self u = Raise (ZeroDivisionError 41)).
Proof.
  unfold Optionstat.total_profit, tradable, total.
  destruct (mapM_get_profit (Optionstat._option_trades self) u)
    as [[HF ->]|[HF ->]]; cbn; [left | right]; now split.
Qed.

Lemma total_profit_ok (self : Optionstat.t) (u : Q) :
  tradable self -> Optionstat.total_profit self u = OK (total self u).
Proof.
  intros H. destruct (total_profit_cases self u) as [[_ E]|[N _]];
    [assumption | contradiction].
Qed.

#[local] Instance total_proper (self : Optionstat.t) : Proper (Qeq ==> Qeq) (total self).
Proof.
  intros u v H. unfold total.
  induction (Optionstat._option_trades self) as [|leg l IH]; cbn [map];
    [reflexivity|].
  now rewrite !sum_cons, IH, H.
Qed.

(** The aggregate profit is affine on an interval that has no strike strictly
    inside. *)
Lemma total_affine (self : Optionstat.t) (a b : Q) :
  a <= b ->
  Forall (fun leg => Leg._strike leg <= a \/ b <= Leg._strike leg)
         (Optionstat._option_trades self) ->
  affine_on a b (total self).
Proof.
  intros Hab HF u Hu. unfold total.
  induction HF as [|leg l Hleg HF IH]; cbn [map].
  - unfold sum. cbn. ring.
  - rewrite !sum_cons.
    pose proof (payoff_affine leg a b Hab Hleg u Hu) as H.
    transitivity ((b - a) * payoff leg u
                  + (b - a) * sum (map (fun leg0 => payoff leg0 u) l)); [ring|].
    rewrite H, IH. ring.
Qed.

(** ** One iteration of the break-even loop *)

Lemma nth_error_nth_lt (l : list Q) (i : nat) :
  (i < length l)%nat -> nth_error l i = Some (nth i l 0).
Proof.
  intros H. now apply nth_error_nth'.
Qed.

Lemma break_even_body_seg (U P : list Q) (j : nat) (acc : list Q) :
  length U = length P -> (S j < length P)%nat ->
  Optionstat.break_even_body U P (S j) acc = after_segment acc (seg U P j).
Proof.
  intros HU Hj. unfold Optionstat.break_even_body, seg, segment.
  rewrite (getitem_nat _ P (S j) (nth (S j) P 0))
    by (apply nth_error_nth_lt; lia).
  rewrite (getitem_pred _ P j (nth j P 0)) by (apply nth_error_nth_lt; lia).
  cbn [bind].
  destruct (Qeq_bool (nth (S j) P 0) (nth j P 0)); [reflexivity|].
  destruct (pydiv 144 (nth (S j) P 0) _) as [si|e]; [|reflexivity].
  destruct (pydiv 144 (nth j P 0) _) as [sj|e]; [|reflexivity].
  cbn [bind]. destruct (Qeq_bool si sj); [reflexivity|].
  rewrite (getitem_nat _ U (S j) (nth (S j) U 0))
    by (apply nth_error_nth_lt; lia).
  rewrite (getitem_pred _ U j (nth j U 0)) by (apply nth_error_nth_lt; lia).
  cbn [bind].
  destruct (pydiv 148 _ _) as [g|e]; [|reflexivity].
  cbn [bind]. now destruct (pydiv 151 _ _).
Qed.

Lemma Qabs_zero (x : Q) : Qabs x == 0 <-> x == 0.
Proof.
  split; intros H.
  - destruct (Qlt_le_dec x 0) as [L|L].
    + rewrite Qabs_neg in H by lra. lra.
    + rewrite Qabs_pos in H by lra. assumption.
  - rewrite H. reflexivity.
Qed.

Lemma sign_pos (x : Q) : 0 < x -> x / Qabs x == 1.
Proof.
  intros H. rewrite Qabs_pos by lra. field. lra.
Qed.

Lemma sign_neg (x : Q) : x < 0 -> x / Qabs x == - (1).
Proof.
  intros H. rewrite Qabs_neg by lra. field. lra.
Qed.

(** Equal profits: the pair is skipped at line 143. *)
Lemma segment_equal (uj ui pj pi : Q) :
  pi == pj -> segment uj ui pj pi = OK None.
Proof.
  intros H. unfold segment. apply Qeq_bool_iff in H. now rewrite H.
Qed.

(** Unequal profits, one of them zero: line 144 divides by zero. *)
Lemma segment_zero (uj ui pj pi : Q) :
  ~ pi == pj -> pi == 0 \/ pj == 0 ->
  segment uj ui pj pi = Raise (ZeroDivisionError 144).
Proof.
  intros Hne H0. unfold segment. apply Qeq_bool_false in Hne. rewrite Hne.
  destruct (Qeq_dec pi 0) as [Ei|Ei].
  - rewrite (pydiv_zero 144 pi) by now apply Qabs_zero. reflexivity.
  - destruct H0 as [H0|H0]; [contradiction|].
    rewrite (pydiv_ok 144 pi) by now rewrite Qabs_zero.
    rewrite (pydiv_zero 144 pj) by now apply Qabs_zero. reflexivity.
Qed.

(** The iteration raises only at line 144, or at line 148 on a pair of equal
    anchor prices with unequal profits. *)
Lemma segment_raise (uj ui pj pi : Q) (e : exn) :
  segment uj ui pj pi = Raise e ->
  e = ZeroDivisionError 144
  \/ (e = ZeroDivisionError 148 /\ ui == uj /\ ~ pi == pj).
Proof.
  unfold segment. destruct (Qeq_bool pi pj) eqn:Ep; [discriminate|].
  apply Qeq_bool_false in Ep.
  unfold pydiv at 1. destruct (Qeq_bool (Qabs pi) 0); cbn [bind].
  { intros [= <-]. now left. }
  unfold pydiv at 1. destruct (Qeq_bool (Qabs pj) 0); cbn [bind].
  { intros [= <-]. now left. }
  destruct (Qeq_bool _ _); [discriminate|].
  unfold pydiv at 1. destruct (Qeq_bool (ui - uj) 0) eqn:Eu; cbn [bind].
  { intros [= <-]. right. apply Qeq_bool_iff in Eu. repeat split; [lra | assumption]. }
  apply Qeq_bool_false in Eu.
  rewrite pydiv_ok; [discriminate|].
  intros Hg. apply Ep.
  assert (H : pi - pj == (pi - pj) / (ui - uj) * (ui - uj)) by (field; assumption).
  rewrite Hg in H. lra.
Qed.

(** A root is appended only between two anchors of distinct prices whose
    profits have strictly opposite signs; it is the interpolation root. *)
Lemma segment_root (uj ui pj pi r : Q) :
  segment uj ui pj pi = OK (Some r) ->
  ~ ui == uj
  /\ ((pj < 0 /\ 0 < pi) \/ (0 < pj /\ pi < 0))
  /\ r == ui - pi * (ui - uj) / (pi - pj).
Proof.
  unfold segment. destruct (Qeq_bool pi pj) eqn:Ep; [discriminate|].
  apply Qeq_bool_false in Ep.
  unfold pydiv at 1. destruct (Qeq_bool (Qabs pi) 0) eqn:Ei; cbn [bind];
    [discriminate|].
  unfold pydiv at 1. destruct (Qeq_bool (Qabs pj) 0) eqn:Ej; cbn [bind];
    [discriminate|].
  apply Qeq_bool_false in Ei, Ej. rewrite Qabs_zero in Ei, Ej.
  destruct (Qeq_bool _ _) eqn:Es; [discriminate|]. apply Qeq_bool_false in Es.
  unfold pydiv at 1. destruct (Qeq_bool (ui - uj) 0) eqn:Eu; cbn [bind];
    [discriminate|].
  apply Qeq_bool_false in Eu.
  assert (Hg : ~ (pi - pj) / (ui - uj) == 0).
  { intros Hg. apply Ep.
    assert (H : pi - pj == (pi - pj) / (ui - uj) * (ui - uj)) by (field; assumption).
    rewrite Hg in H. lra. }
  rewrite pydiv_ok by assumption. intros [= <-].
  split; [lra|]. split.
  - destruct (Qlt_le_dec pi 0) as [Li|Li], (Qlt_le_dec pj 0) as [Lj|Lj].
    + exfalso. apply Es. rewrite !sign_neg by assumption. reflexivity.
    + right. split; [lra | assumption].
    + left. split; [assumption | lra].
    + exfalso. apply Es. rewrite !sign_pos by lra. reflexivity.
  - field. split; lra.
Qed.

(** Where the interpolation root lies, and that an affine function through
    the two anchors vanishes there. *)
Lemma root_between (uj ui pj pi r : Q) :
  uj < ui -> (pj < 0 /\ 0 < pi) \/ (0 < pj /\ pi < 0) ->
  r == ui - pi * (ui - uj) / (pi - pj) ->
  uj < r < ui.
Proof.
  intros Hu Hs Hr.
  assert (H1 : (r - uj) * (pi - pj) == (ui - uj) * (- pj))
    by (rewrite Hr; field; lra).
  assert (H2 : (ui - r) * (pi - pj) == (ui - uj) * pi)
    by (rewrite Hr; field; lra).
  destruct Hs as [[Hj Hi]|[Hj Hi]]; split.
  - apply Qnot_le_lt. intros L.
    assert (0 < (ui - uj) * (- pj)) by (apply Qmult_lt_0_compat; lra). nra.
  - apply Qnot_le_lt. intros L.
    assert (0 < (ui - uj) * pi) by (apply Qmult_lt_0_compat; lra). nra.
  - apply Qnot_le_lt. intros L.
    assert (0 < (ui - uj) * pj) by (apply Qmult_lt_0_compat; lra). nra.
  - apply Qnot_le_lt. intros L.
    assert (0 < (ui - uj) * (- pi)) by (apply Qmult_lt_0_compat; lra). nra.
Qed.

Lemma root_zero (f : Q -> Q) (uj ui r : Q) :
  uj < ui -> affine_on uj ui f -> ~ f ui == f uj ->
  r == ui - f ui * (ui - uj) / (f ui - f uj) ->
  uj <= r <= ui -> f r == 0.
Proof.
  intros Hu Haff Hne Hr Hin. specialize (Haff r Hin).
  assert (E : (ui - r) * f uj + (r - uj) * f ui == 0)
    by (rewrite Hr; field; lra).
  rewrite E in Haff.
  apply Qmult_integral in Haff. destruct Haff; [lra | assumption].
Qed.

(** ** The break-even loop *)

Lemma for_range_scan (U P : list Q) (k s : nat) (acc : list Q) :
  length U = length P -> (S s + k <= length P)%nat ->
  for_range (Optionstat.break_even_body U P) (seq (S s) k) acc
  = scan U P (seq s k) acc.
Proof.
  intros HU. revert s acc. induction k as [|k IH]; intros s acc Hk;
    [reflexivity|].
  cbn [seq for_range scan]. rewrite break_even_body_seg by (assumption || lia).
  destruct (after_segment acc (seg U P s)) as [acc'|e]; cbn [bind];
    [|reflexivity].
  apply IH. lia.
Qed.

Lemma scan_ok (U P : list Q) (js : list nat) (acc res : list Q) :
  scan U P js acc = OK res -> res = acc ++ flat_map (roots U P) js.
Proof.
  revert acc. induction js as [|j js IH]; intros acc; cbn [scan flat_map].
  - intros [= <-]. now rewrite app_nil_r.
  - unfold roots at 1. destruct (seg U P j) as [[r|]|e]; cbn; try discriminate.
    + intros H. apply IH in H. now rewrite H, <- app_assoc.
    + apply IH.
Qed.

Lemma scan_raise (U P : list Q) (js : list nat) (acc : list Q) (e : exn) :
  scan U P js acc = Raise e -> exists j, In j js /\ seg U P j = Raise e.
Proof.
  revert acc. induction js as [|j js IH]; intros acc; cbn [scan];
    [discriminate|].
  destruct (seg U P j) as [[r|]|e'] eqn:E; cbn.
  - intros H. destruct (IH _ H) as (j' & Hin & Hj'). exists j'. now split; [right|].
  - intros H. destruct (IH _ H) as (j' & Hin & Hj'). exists j'. now split; [right|].
  - intros [= <-]. exists j. now split; [left|].
Qed.

(** When every pair can only raise [e], and one pair does, the loop raises
    [e]. *)
Lemma scan_bad (U P : list Q) (js : list nat) (acc : list Q) (e : exn) (j : nat) :
  In j js -> seg U P j = Raise e ->
  (forall j' e', In j' js -> seg U P j' = Raise e' -> e' = e) ->
  scan U P js acc = Raise e.
Proof.
  intros Hj He Hall. destruct (scan U P js acc) as [res|e'] eqn:E.
  - exfalso. revert acc E. induction js as [|j0 js IH]; intros acc;
      [contradiction|].
    cbn [scan]. destruct (Nat.eq_dec j0 j) as [->|Hne].
    + rewrite He. discriminate.
    + destruct (after_segment acc (seg U P j0)) as [acc'|e0]; cbn [bind];
        [|discriminate].
      apply IH.
      * destruct Hj; [contradiction | assumption].
      * intros j' e' Hin. apply Hall. now right.
  - apply scan_raise in E. destruct E as (j' & Hin & Hj').
    f_equal. eapply Hall; eassumption.
Qed.

(** ** Maximum and minimum of a list *)

Lemma fold_left_pymax (l : list Q) (a : Q) :
  In (fold_left pymax l a) (a :: l)
  /\ Forall (fun p => p <= fold_left pymax l a) (a :: l).
Proof.
  revert a. induction l as [|x l IH]; intros a; cbn [fold_left].
  - split; [now left | repeat constructor; apply Qle_refl].
  - destruct (IH (pymax a x)) as [Hin Hle].
    inversion Hle as [|? ? Ha Hl]; subst.
    assert (a <= pymax a x /\ x <= pymax a x /\ (pymax a x = a \/ pymax a x = x))
      as (La & Lx & Hc).
    { unfold pymax. destruct (Qltb a x) eqn:E;
        [apply Qltb_lt in E | apply Qltb_ge in E]; repeat split;
        auto; lra. }
    split.
    + destruct Hin as [Hin|Hin]; [|now right; right].
      rewrite <- Hin. destruct Hc as [-> | ->]; [now left | now right; left].
    + constructor; [lra|]. constructor; [lra | assumption].
Qed.

Lemma fold_left_pymin (l : list Q) (a : Q) :
  In (fold_left pymin l a) (a :: l)
  /\ Forall (fun p => fold_left pymin l a <= p) (a :: l).
Proof.
  revert a. induction l as [|x l IH]; intros a; cbn [fold_left].
  - split; [now left | repeat constructor; apply Qle_refl].
  - destruct (IH (pymin a x)) as [Hin Hle].
    inversion Hle as [|? ? Ha Hl]; subst.
    assert (pymin a x <= a /\ pymin a x <= x /\ (pymin a x = a \/ pymin a x = x))
      as (La & Lx & Hc).
    { unfold pymin. destruct (Qltb x a) eqn:E;
        [apply Qltb_lt in E | apply Qltb_ge in E]; repeat split;
        auto; lra. }
    split.
    + destruct Hin as [Hin|Hin]; [|now right; right].
      rewrite <- Hin. destruct Hc as [-> | ->]; [now left | now right; left].
    + constructor; [lra|]. constructor; [lra | assumption].
Qed.

Lemma max_list_spec (line : nat) (l : list Q) :
  l <> [] -> exists m, max_list line l = OK m /\ is_max m l.
Proof.
  destruct l as [|a l]; [congruence|]. intros _.
  exists (fold_left pymax l a). split; [reflexivity | apply fold_left_pymax].
Qed.

Lemma min_list_spec (line : nat) (l : list Q) :
  l <> [] -> exists m, min_list line l = OK m /\ is_min m l.
Proof.
  destruct l as [|a l]; [congruence|]. intros _.
  exists (fold_left pymin l a). split; [reflexivity | apply fold_left_pymin].
Qed.

(** ** The anchors of [stat] and their profits *)

Lemma underlying_prices_nil :
  Optionstat.underlying_prices [] = Raise (IndexError 122).
Proof.
  unfold Optionstat.underlying_prices. now rewrite getitem_nil.
Qed.

Lemma underlying_prices_ok (S : list Q) :
  S <> [] -> Optionstat.underlying_prices S = OK (anchors S).
Proof.
  intros H. destruct (exists_last H) as (S' & k & ->).
  unfold Optionstat.underlying_prices, anchors.
  now rewrite getitem_last, last_last.
Qed.

Lemma mapM_total_profit (self : Optionstat.t) (U : list Q) :
  tradable self ->
  mapM (Optionstat.total_profit self) U = OK (map (total self) U).
Proof.
  intros H. apply mapM_Forall2. induction U as [|u U IH]; cbn; constructor;
    [now apply total_profit_ok | assumption].
Qed.

Lemma mapM_total_profit_raise (self : Optionstat.t) (U : list Q) :
  ~ tradable self -> U <> [] ->
  mapM (Optionstat.total_profit self) U = Raise (ZeroDivisionError 41).
Proof.
  intros H HU. destruct U as [|u U]; [congruence|]. cbn [mapM].
  destruct (total_profit_cases self u) as [[T _]|[_ ->]];
    [contradiction | reflexivity].
Qed.

Lemma anchor_profits_ok (self : Optionstat.t) :
  Optionstat._strike_prices self <> [] -> tradable self ->
  anchor_profits self
  = OK (map (total self) (anchors (sort (Optionstat._strike_prices self)))).
Proof.
  intros HS HT. unfold anchor_profits, anchor_prices.
  rewrite underlying_prices_ok by (intros E; now apply sort_nil in E).
  cbn [bind]. now apply mapM_total_profit.
Qed.

Lemma anchor_profits_inv (self : Optionstat.t) (P : list Q) :
  anchor_profits self = OK P ->
  Optionstat._strike_prices self <> [] /\ tradable self
  /\ P = map (total self) (anchors (sort (Optionstat._strike_prices self))).
Proof.
  intros H. unfold anchor_profits, anchor_prices in H.
  destruct (Optionstat._strike_prices self) as [|k S] eqn:ES.
  { cbn in H. discriminate. }
  rewrite underlying_prices_ok in H
    by (intros E; apply sort_nil in E; discriminate).
  cbn [bind] in H.
  assert (HT : tradable self).
  { destruct (total_profit_cases self 0) as [[T _]|[N _]]; [assumption|].
    rewrite mapM_total_profit_raise in H; [discriminate | assumption |].
    unfold anchors. discriminate. }
  rewrite mapM_total_profit in H by assumption.
  injection H as <-. repeat split; [discriminate | assumption].
Qed.

Lemma length_anchors (S : list Q) : length (anchors S) = (length S + 2)%nat.
Proof.
  unfold anchors. cbn [app length]. rewrite length_app. cbn. lia.
Qed.

(** [stat] on a non-empty strategy whose legs can all be evaluated: the
    extreme values are decided first, then the loop runs. *)
Lemma stat_normal (self : Optionstat.t) :
  Optionstat._strike_prices self <> [] -> tradable self ->
  let U := anchors (sort (Optionstat._strike_prices self)) in
  let P := map (total self) U in
  exists l prev last M m,
    P = l ++ [prev; last] /\ is_max M P /\ is_min m P
    /\ snd (Optionstat.stat self)
       = (be <- scan U P (seq 0 (length P - 1)) [] ;;
          OK {| legs := length (Optionstat._strike_prices self);
                max_profit := if Qltb prev last then Inf else Fin M;
                max_loss := if Qltb last prev then NegInf else Fin m;
                break_even := be |}).
Proof.
  intros HS HT U P.
  assert (HU : length U = length P) by (unfold P; now rewrite length_map).
  assert (HP : (3 <= length P)%nat).
  { rewrite <- HU. unfold U. rewrite length_anchors.
    destruct (sort (Optionstat._strike_prices self)) eqn:E;
      [now apply sort_nil in E | cbn; lia]. }
  destruct (last_two P) as (l & prev & last & EP); [lia|].
  assert (HN : P <> []) by (intros E; rewrite E in HP; cbn in HP; lia).
  destruct (max_list_spec 131 P HN) as (M & EM & HM).
  destruct (min_list_spec 137 P HN) as (m & Em & Hm).
  exists l, prev, last, M, m. repeat split; try apply HM; try apply Hm;
    try assumption.
  cbn [Optionstat.stat snd]. unfold Optionstat.stat_body.
  cbn [Optionstat._strike_prices].
  rewrite underlying_prices_ok by (intros E; now apply sort_nil in E).
  cbn [bind]. fold U.
  replace (mapM _ U) with (OK P) by (symmetry; now apply mapM_total_profit).
  cbn [bind]. rewrite EM, Em.
  assert (G1 : forall line, getitem line P (-1) = OK last).
  { intros line. rewrite EP.
    replace (l ++ [prev; last]) with ((l ++ [prev]) ++ [last])
      by now rewrite <- app_assoc.
    apply getitem_last. }
  assert (G2 : forall line, getitem line P (-2) = OK prev)
    by (intros line; rewrite EP; apply getitem_last2).
  rewrite !G1, !G2. cbn [bind].
  unfold range1. rewrite for_range_scan by (assumption || lia).
  rewrite length_sort.
  destruct (Qltb prev last), (Qltb last prev); reflexivity.
Qed.

(** The two ways in which [stat] fails before the break-even loop. *)
Lemma stat_empty (self : Optionstat.t) :
  Optionstat._strike_prices self = [] ->
  snd (Optionstat.stat self) = Raise (IndexError 122).
Proof.
  intros H. cbn [Optionstat.stat snd]. unfold Optionstat.stat_body.
  cbn [Optionstat._strike_prices]. rewrite H. reflexivity.
Qed.

Lemma stat_untradable (self : Optionstat.t) :
  Optionstat._strike_prices self <> [] -> ~ tradable self ->
  snd (Optionstat.stat self) = Raise (ZeroDivisionError 41).
Proof.
  intros HS HT. cbn [Optionstat.stat snd]. unfold Optionstat.stat_body.
  cbn [Optionstat._strike_prices].
  rewrite underlying_prices_ok by (intros E; now apply sort_nil in E).
  cbn [bind]. rewrite mapM_total_profit_raise;
    [reflexivity | assumption | unfold anchors; discriminate].
Qed.

Lemma tradable_dec (self : Optionstat.t) : tradable self \/ ~ tradable self.
Proof.
  destruct (total_profit_cases self 0) as [[T _]|[N _]]; [now left | now right].
Qed.

Lemma stat_ok_inv (self : Optionstat.t) (r : Stat) :
  snd (Optionstat.stat self) = OK r ->
  Optionstat._strike_prices self <> [] /\ tradable self.
Proof.
  intros H. destruct (Optionstat._strike_prices self) as [|k S] eqn:ES.
  { rewrite stat_empty in H by assumption. discriminate. }
  split; [discriminate|].
  destruct (tradable_dec self) as [T|N]; [assumption|].
  rewrite stat_untradable in H; [discriminate | | assumption].
  rewrite ES. discriminate.
Qed.

Lemma nth_map_lt (f : Q -> Q) (l : list Q) (j : nat) :
  (j < length l)%nat -> nth j (map f l) 0 = f (nth j l 0).
Proof.
  intros H. rewrite (nth_indep _ 0 (f 0)) by now rewrite length_map.
  apply map_nth.
Qed.

(** On the profits of a list of prices, the loop raises only at line 144:
    equal prices have equal profits, so line 148 never divides by zero. *)
Lemma seg_raise_total (self : Optionstat.t) (U : list Q) (j : nat) (e : exn) :
  (S j < length U)%nat ->
  seg U (map (total self) U) j = Raise e -> e = ZeroDivisionError 144.
Proof.
  intros Hj H. unfold seg in H. rewrite !nth_map_lt in H by lia.
  apply segment_raise in H. destruct H as [H|(_ & Hu & Hp)]; [assumption|].
  exfalso. apply Hp. now rewrite Hu.
Qed.

Lemma in_seq0 (j n : nat) : In j (seq 0 n) <-> (j < n)%nat.
Proof.
  rewrite in_seq. lia.
Qed.

(** The exceptions that [stat] can raise. *)
Lemma stat_raise_kinds (self : Optionstat.t) (e : exn) :
  snd (Optionstat.stat self) = Raise e ->
  e = IndexError 122 \/ e = ZeroDivisionError 41 \/ e = ZeroDivisionError 144.
Proof.
  intros H. destruct (Optionstat._strike_prices self) as [|k S] eqn:ES.
  { rewrite stat_empty in H by assumption. left. congruence. }
  assert (HS : Optionstat._strike_prices self <> []) by (rewrite ES; discriminate).
  destruct (tradable_dec self) as [T|N].
  2:{ rewrite stat_untradable in H by assumption. right. left. congruence. }
  right. right.
  destruct (stat_normal self HS T) as (l & prev & last & M & m & _ & _ & _ & E).
  rewrite E in H. clear E.
  destruct (scan _ _ _ _) as [be|e'] eqn:Es; [discriminate|].
  cbn in H. injection H as <-.
  apply scan_raise in Es. destruct Es as (j & Hin & Hj).
  apply in_seq0 in Hin. rewrite length_map in Hin.
  eapply seg_raise_total; [|eassumption]. lia.
Qed.

(** Profits that are both non-zero never make the sign test raise. *)
Lemma segment_nonzero (uj ui pj pi : Q) :
  ~ pi == 0 -> ~ pj == 0 ->
  segment uj ui pj pi <> Raise (ZeroDivisionError 144).
Proof.
  intros Hi Hj. unfold segment. destruct (Qeq_bool pi pj); [discriminate|].
  rewrite !pydiv_ok by now rewrite Qabs_zero. cbn [bind].
  destruct (Qeq_bool _ _); [discriminate|].
  unfold pydiv at 1. destruct (Qeq_bool (ui - uj) 0); cbn [bind];
    [discriminate|].
  unfold pydiv. destruct (Qeq_bool _ 0); discriminate.
Qed.

(** [stat] returns whenever the anchor profits can be computed and no two
    adjacent anchors have unequal profits of which one is zero. *)
Lemma stat_returns (self : Optionstat.t) (P : list Q) :
  anchor_profits self = OK P ->
  (forall j, (S j < length P)%nat ->
             nth j P 0 == nth (S j) P 0
             \/ (~ nth j P 0 == 0 /\ ~ nth (S j) P 0 == 0)) ->
  exists r, snd (Optionstat.stat self) = OK r.
Proof.
  intros HP Hnz. destruct (anchor_profits_inv self P HP) as (HS & HT & EP).
  destruct (stat_normal self HS HT) as (l & prev & last & M & m & _ & _ & _ & E).
  rewrite E. clear E. rewrite <- EP.
  set (U := anchors (sort (Optionstat._strike_prices self))) in *.
  destruct (scan U P _ []) as [be|e] eqn:Es; [eexists; reflexivity|].
  exfalso. apply scan_raise in Es. destruct Es as (j & Hin & Hj).
  apply in_seq0 in Hin.
  assert (He : e = ZeroDivisionError 144).
  { rewrite EP in Hj, Hin. rewrite length_map in Hin.
    eapply seg_raise_total; [|eassumption]. lia. }
  subst e. unfold seg in Hj.
  destruct (Hnz j) as [Heq|[H1 H2]]; [lia | |].
  - rewrite segment_equal in Hj by now symmetry. discriminate.
  - now apply segment_nonzero in Hj.
Qed.

(** * The claims of the specification *)

(** ** C1: the naked short call *)

(** C1.  For the single short call (strike 100, premium 2, position -1,
    contract size 100) [stat] returns [max_profit = 200] and
    [max_loss = -inf], but its [break_even] list is empty: the anchors are
    [0, 100, 101] with profits [200, 200, 100], all positive, so the scan
    never sees the crossing at 102, where the aggregate profit is zero. *)
Theorem C1_short_call_stat :
  snd (Optionstat.stat short_call)
  = OK {| legs := 1; max_profit := Fin 200; max_loss := NegInf;
          break_even := [] |}
  /\ anchor_profits short_call = OK [200; 200; 100]
  /\ exists q, Optionstat.total_profit short_call 102 = OK q /\ q == 0.
Proof.
  split; [reflexivity|]. split; [reflexivity|].
  eexists. split; [reflexivity|]. reflexivity.
Qed.

(** ** C4: add_trade validates nothing *)

(** C4 (as the code has it).  [add_trade] never raises: for every strike,
    premium, position and option type it appends the new leg, built with the
    strategy's contract size, and records the strike. *)
Theorem C4_add_trade_appends (self : Optionstat.t) (strike premium : Q)
  (position : Z) (option_type : string) :
  Optionstat.add_trade self strike premium position option_type
  = ({| Optionstat._option_trades :=
          Optionstat._option_trades self
          ++ [Leg.__init__ strike premium position option_type
                           (Optionstat._contract_size self)];
        Optionstat._strike_prices := Optionstat._strike_prices self ++ [strike];
        Optionstat._contract_size := Optionstat._contract_size self |},
     OK tt).
Proof.
  reflexivity.
Qed.

(** C4, refuted as stated: a zero position, an unknown option type and a
    non-positive strike are each accepted, and the leg is appended. *)
Lemma C4_add_trade_accepts_invalid :
  let empty := Optionstat.__init__ 100 in
  let accepted (r : Optionstat.t * result unit) :=
    snd r = OK tt /\ length (Optionstat._option_trades (fst r)) = 1%nat in
  accepted (Optionstat.add_trade empty 100 2 0 "Call")
  /\ accepted (Optionstat.add_trade empty 100 2 1 "Straddle")
  /\ accepted (Optionstat.add_trade empty (-5) 2 1 "Put").
Proof.
  repeat split.
Qed.

(** ** C5: a leg of unknown option type *)

(** C5 (as the code has it).  For a leg whose option type is neither
    ["Call"] nor ["Put"] the intrinsic value is taken to be [0]: when the
    position is not zero, [get_profit] returns
    [- premium * position * contract_size] at every underlying price; when
    the position is zero it raises [ZeroDivisionError] at line 41. *)
Theorem C5_unknown_type_profit (leg : Leg.t) (underlying : Q) :
  String.eqb (Leg._option_type leg) "Call" = false ->
  String.eqb (Leg._option_type leg) "Put" = false ->
  (Leg._position leg <> 0%Z ->
   exists q, Leg.get_profit leg underlying = OK q
             /\ q == - Leg._premium leg * inject_Z (Leg._position leg)
                     * inject_Z (Leg._contract_size leg))
  /\ (Leg._position leg = 0%Z ->
      Leg.get_profit leg underlying = Raise (ZeroDivisionError 41)).
Proof.
  intros HC HP. split; [|apply get_profit_zero].
  intros Hpos. exists (payoff leg underlying).
  split; [now apply get_profit_ok|].
  unfold payoff, intrinsic. rewrite HC, HP.
  rewrite pymax_pos by apply Qle_refl.
  assert (Hq : ~ inject_Z (Leg._position leg) == 0) by now rewrite inject_Z_zero.
  assert (Habs : inject_Z (Z.abs (Leg._position leg))
                 * inject_Z (Z.abs (Leg._position leg))
                 == inject_Z (Leg._position leg) * inject_Z (Leg._position leg)).
  { rewrite <- !inject_Z_mult. now rewrite Z.abs_square. }
  set (A := inject_Z (Z.abs (Leg._position leg))) in *.
  set (p := inject_Z (Leg._position leg)) in *.
  transitivity ((0 - Leg._premium leg) * (A * A) / p
                * inject_Z (Leg._contract_size leg)); [field; assumption|].
  rewrite Habs. field. assumption.
Qed.

Lemma C5_unknown_type_profit_witness :
  exists q, Leg.get_profit unknown_type_leg 50 = OK q /\ q == - (200).
Proof.
  destruct (C5_unknown_type_profit unknown_type_leg 50 eq_refl eq_refl)
    as [H _].
  destruct H as (q & Hq & E); [discriminate|].
  exists q. split; [assumption|]. rewrite E. reflexivity.
Defined.

(** C5, refuted as stated: the leg of type ["Straddle"] is evaluated without
    any exception. *)
Lemma C5_unknown_type_returns :
  Leg.get_profit unknown_type_leg 50 = OK (- (200))
  /\ Leg.get_profit unknown_type_leg 150 = OK (- (200)).
Proof.
  split; reflexivity.
Qed.

(** ** C6: the empty strategy *)

(** C6.  On a strategy without legs both [stat] and [_get_price_range] raise
    instead of returning: [stat] at line 122, where the last strike is read
    ([IndexError]), and [_get_price_range] at line 76, where the minimum of
    no strikes is taken ([ValueError]).  These are the exceptions that the
    specification names [NoLegs]. *)
Theorem C6_empty_strategy_raises (contract_size : Z) :
  snd (Optionstat.stat (Optionstat.__init__ contract_size))
  = Raise (IndexError 122)
  /\ Optionstat._get_price_range (Optionstat.__init__ contract_size)
     = Raise (ValueError 76).
Proof.
  split; reflexivity.
Qed.

(** ** C7: the default price range *)

Lemma int_floor (x : Q) : 0 <= x -> int x = Qfloor x.
Proof.
  destruct x as [n d]. unfold Qle, int, Qfloor. cbn. intros H.
  apply Z.quot_div_nonneg; lia.
Qed.

(** On the other side of zero truncation rounds up. *)
Lemma int_ceiling (x : Q) : x <= 0 -> int x = Qceiling x.
Proof.
  destruct x as [n d]. unfold Qle, int, Qceiling, Qfloor. cbn. intros H.
  rewrite <- (Z.opp_involutive n) at 1. rewrite Z.quot_opp_l by lia.
  f_equal. apply Z.quot_div_nonneg; lia.
Qed.

(** C7 (as the code has it).  For every non-empty strategy
    [_get_price_range] returns [(int(m * (1 - 0.1)), int(M * (1 + 0.1)))]
    for the least strike [m] and the greatest strike [M], where [int]
    truncates toward zero: both bounds are rounded down when the strikes are
    not negative.  On the strikes [90, 100, 110] the result is [(81, 121)]. *)
Theorem C7_price_range :
  (forall self : Optionstat.t,
      Optionstat._strike_prices self <> [] ->
      exists m M,
        is_min m (Optionstat._strike_prices self)
        /\ is_max M (Optionstat._strike_prices self)
        /\ Optionstat._get_price_range self
           = OK (int (m * (1 - PRICE_RANGE_PCT)), int (M * (1 + PRICE_RANGE_PCT)))
        /\ (0 <= m -> int (m * (1 - PRICE_RANGE_PCT)) = Qfloor (m * (9 # 10)))
        /\ (0 <= M -> int (M * (1 + PRICE_RANGE_PCT)) = Qfloor (M * (11 # 10))))
  /\ (forall self : Optionstat.t,
         Optionstat._strike_prices self = [90; 100; 110] ->
         Optionstat._get_price_range self = OK (81, 121)%Z).
Proof.
  split.
  - intros self HS.
    destruct (min_list_spec 76 _ HS) as (m & Em & Hm).
    destruct (max_list_spec 77 _ HS) as (M & EM & HM).
    exists m, M. repeat split; try apply Hm; try apply HM.
    + unfold Optionstat._get_price_range. now rewrite Em, EM.
    + intros H. rewrite int_floor.
      * apply Qfloor_comp. unfold PRICE_RANGE_PCT. ring.
      * unfold PRICE_RANGE_PCT. nra.
    + intros H. rewrite int_floor.
      * apply Qfloor_comp. unfold PRICE_RANGE_PCT. ring.
      * unfold PRICE_RANGE_PCT. nra.
  - intros self HS. unfold Optionstat._get_price_range. rewrite HS. reflexivity.
Qed.

Lemma C7_price_range_witness :
  Optionstat._strike_prices three_strikes <> []
  /\ Optionstat._strike_prices three_strikes = [90; 100; 110]
  /\ Optionstat._get_price_range three_strikes = OK (81, 121)%Z
  /\ exists m M,
      Optionstat._get_price_range three_strikes
      = OK (int (m * (1 - PRICE_RANGE_PCT)), int (M * (1 + PRICE_RANGE_PCT))).
Proof.
  split; [discriminate|]. split; [reflexivity|]. split.
  - apply (proj2 C7_price_range three_strikes). reflexivity.
  - destruct (proj1 C7_price_range three_strikes) as (m & M & _ & _ & E & _);
      [discriminate|].
    exists m, M. exact E.
Defined.

(** C7, refuted as stated: with the single strike 105 the upper bound is
    [int(115.5) = 115], not the ceiling 116. *)
Lemma C7_upper_bound_not_ceiling :
  Optionstat._get_price_range strike_105 = OK (94, 115)%Z
  /\ Qfloor (105 * (9 # 10)) = 94%Z
  /\ Qceiling (105 * (11 # 10)) = 116%Z.
Proof.
  repeat split.
Qed.

(** ** C10: stat sorts the recorded strikes *)

(** C10 (as the code has it).  [stat] leaves the legs and the contract size
    as they were and replaces the recorded strikes by their ascending sort:
    the same strikes, but not in insertion order.  This holds whether [stat]
    returns or raises. *)
Theorem C10_stat_sorts_strikes (self : Optionstat.t) :
  let self' := fst (Optionstat.stat self) in
  Optionstat._option_trades self' = Optionstat._option_trades self
  /\ Optionstat._contract_size self' = Optionstat._contract_size self
  /\ Optionstat._strike_prices self' = sort (Optionstat._strike_prices self)
  /\ Permutation (Optionstat._strike_prices self') (Optionstat._strike_prices self)
  /\ StronglySorted Qle (Optionstat._strike_prices self').
Proof.
  cbn. repeat split; [apply sort_perm | apply sort_sorted].
Qed.

(** C10, refuted as stated: after the strikes 110 and 100 are entered in
    this order, [stat] returns and the recorded strikes are [100, 110]. *)
Lemma C10_stat_reorders_strikes :
  Optionstat._strike_prices spread_high_first = [110; 100]
  /\ (exists r, snd (Optionstat.stat spread_high_first) = OK r)
  /\ Optionstat._strike_prices (fst (Optionstat.stat spread_high_first))
     = [100; 110]
  /\ Optionstat._strike_prices (fst (Optionstat.stat spread_high_first))
     <> Optionstat._strike_prices spread_high_first.
Proof.
  split; [reflexivity|]. split; [eexists; reflexivity|].
  split; [reflexivity | discriminate].
Qed.

(** ** C8: a zero profit at an anchor *)

(** C8.  When two adjacent anchors have profits of which exactly one is
    zero, [stat] raises [ZeroDivisionError] at the sign test of line 144. *)
Theorem C8_zero_anchor_raises (self : Optionstat.t) (P : list Q) (j : nat)
  (p q : Q) :
  anchor_profits self = OK P ->
  nth_error P j = Some p -> nth_error P (S j) = Some q ->
  (p == 0 /\ ~ q == 0) \/ (~ p == 0 /\ q == 0) ->
  snd (Optionstat.stat self) = Raise (ZeroDivisionError 144).
Proof.
  intros HP Hp Hq Hz.
  destruct (anchor_profits_inv self P HP) as (HS & HT & EP).
  destruct (stat_normal self HS HT) as (l & prev & last & M & m & _ & _ & _ & E).
  rewrite E. clear E. rewrite <- EP.
  set (U := anchors (sort (Optionstat._strike_prices self))) in *.
  assert (Hj : (S j < length P)%nat) by (apply nth_error_Some; congruence).
  rewrite (scan_bad U P _ [] (ZeroDivisionError 144) j); [reflexivity | | |].
  - apply in_seq0. lia.
  - unfold seg. rewrite (nth_error_nth P j 0 Hp), (nth_error_nth P (S j) 0 Hq).
    apply segment_zero.
    + destruct Hz as [[Z1 Z2]|[Z1 Z2]]; intros Heq.
      * apply Z2. now rewrite Heq.
      * apply Z1. now rewrite <- Heq.
    + tauto.
  - intros j' e' Hin Hs. apply in_seq0 in Hin. rewrite EP in Hs, Hin.
    rewrite length_map in Hin.
    eapply seg_raise_total; [|eassumption]. lia.
Qed.

Lemma C8_zero_anchor_raises_witness :
  anchor_profits long_call_premium_1 = OK [- (100); - (100); 0]
  /\ snd (Optionstat.stat long_call_premium_1) = Raise (ZeroDivisionError 144).
Proof.
  split; [reflexivity|].
  apply (C8_zero_anchor_raises long_call_premium_1 [- (100); - (100); 0] 1
           (- (100)) 0); try reflexivity.
  right. split; [discriminate | reflexivity].
Defined.

(** ** C9: duplicate strikes *)



(** ** C3: the break-even points *)

(** Every leg's strike is recorded, in every object a program can build. *)
Lemma reachable_strikes (self : Optionstat.t) :
  Optionstat.reachable self ->
  Permutation (map Leg._strike (Optionstat._option_trades self))
              (Optionstat._strike_prices self).
Proof.
  induction 1 as [cs | self k p pos ty _ IH | self _ IH]; cbn.
  - constructor.
  - rewrite map_app. now apply Permutation_app.
  - rewrite IH. symmetry. apply sort_perm.
Qed.

Lemma last_nth_error (l : list Q) :
  l <> [] -> nth_error l (length l - 1) = Some (last l 0).
Proof.
  intros H. destruct (exists_last H) as (l' & k & ->).
  rewrite last_last, length_app. cbn [length].
  replace (length l' + 1 - 1)%nat with (length l' + 0)%nat by lia.
  now rewrite nth_error_app2, Nat.add_comm, Nat.add_sub by lia.
Qed.

Lemma sorted_le_last (l : list Q) :
  StronglySorted Qle l -> Forall (fun x => x <= last l 0) l.
Proof.
  intros H. apply Forall_forall. intros x Hx.
  apply In_nth_error in Hx. destruct Hx as (i & Hi).
  assert (Hl : l <> []) by (intros ->; now destruct i).
  assert (Hlt : (i < length l)%nat) by (apply nth_error_Some; congruence).
  apply (sorted_nth_error l i (length l - 1) x (last l 0) H);
    [lia | assumption | now apply last_nth_error].
Qed.

Lemma sorted_snoc (l : list Q) (b : Q) :
  StronglySorted Qle l -> Forall (fun x => x <= b) l ->
  StronglySorted Qle (l ++ [b]).
Proof.
  induction 1 as [|a l Hs IH Ha]; intros Hb; cbn.
  - repeat constructor.
  - inversion Hb; subst. constructor; [now apply IH|].
    apply Forall_app. split; [assumption | now repeat constructor].
Qed.

Lemma last_nonneg (l : list Q) :
  Forall (fun k => 0 <= k) l -> 0 <= last l 0.
Proof.
  induction 1 as [|a l Ha Hl IH]; cbn; [apply Qle_refl|].
  destruct l; assumption.
Qed.

Lemma anchors_sorted (S : list Q) :
  StronglySorted Qle S -> Forall (fun k => 0 <= k) S ->
  StronglySorted Qle (anchors S).
Proof.
  intros Hs H0. unfold anchors. cbn [app].
  pose proof (last_nonneg S H0) as Hl. constructor.
  - apply sorted_snoc; [assumption|].
    eapply Forall_impl; [|apply sorted_le_last; assumption].
    cbn. intros x Hx. lra.
  - apply Forall_app. split; [assumption|]. repeat constructor. lra.
Qed.

(** In a sorted list no element lies strictly between two neighbours. *)
Lemma no_element_inside (U : list Q) (j : nat) (K : Q) :
  StronglySorted Qle U -> (S j < length U)%nat -> In K U ->
  K <= nth j U 0 \/ nth (S j) U 0 <= K.
Proof.
  intros Hs Hj HK. apply In_nth_error in HK. destruct HK as (i & Hi).
  destruct (Nat.le_gt_cases i j) as [L|L].
  - left. apply (sorted_nth_error U i j); try assumption.
    apply nth_error_nth_lt. lia.
  - right. apply (sorted_nth_error U (S j) i); try assumption; try lia.
    apply nth_error_nth_lt. lia.
Qed.

(** A root appended for the pair [(j, j + 1)] lies strictly between the two
    anchor prices and is a zero of the aggregate profit. *)
Lemma seg_root (self : Optionstat.t) (U : list Q) (j : nat) (x : Q) :
  StronglySorted Qle U ->
  Forall (fun leg => In (Leg._strike leg) U) (Optionstat._option_trades self) ->
  (S j < length U)%nat ->
  seg U (map (total self) U) j = OK (Some x) ->
  nth j U 0 < x < nth (S j) U 0 /\ total self x == 0.
Proof.
  intros Hs HK Hj H. unfold seg in H. rewrite !nth_map_lt in H by lia.
  set (uj := nth j U 0) in *. set (ui := nth (S j) U 0) in *.
  apply segment_root in H. destruct H as (Hne & Hsign & Hx).
  assert (Hle : uj <= ui).
  { apply (sorted_nth_error U j (S j)); try assumption; [lia | |];
      apply nth_error_nth_lt; lia. }
  assert (Hlt : uj < ui) by (apply Qnot_le_lt; intros L; apply Hne; lra).
  pose proof (root_between uj ui _ _ x Hlt Hsign Hx) as Hb.
  split; [assumption|].
  apply (root_zero (total self) uj ui x); try assumption; try lra.
  apply total_affine; [assumption|].
  eapply Forall_impl; [|exact HK]. cbn. intros leg Hin.
  now apply no_element_inside.
Qed.

(** The roots collected over consecutive pairs are strictly ascending. *)
Lemma roots_ascending (U P : list Q) :
  StronglySorted Qle U ->
  (forall j x, (S j < length U)%nat -> seg U P j = OK (Some x) ->
               nth j U 0 < x < nth (S j) U 0) ->
  forall k s, (s + k < length U)%nat ->
    StronglySorted Qlt (flat_map (roots U P) (seq s k))
    /\ Forall (fun x => nth s U 0 < x) (flat_map (roots U P) (seq s k)).
Proof.
  intros Hs Hroot. induction k as [|k IH]; intros s Hk; cbn [seq flat_map].
  - split; constructor.
  - destruct (IH (S s)) as [IH1 IH2]; [lia|].
    assert (Hle : nth s U 0 <= nth (S s) U 0).
    { apply (sorted_nth_error U s (S s)); try assumption; [lia | |];
        apply nth_error_nth_lt; lia. }
    assert (Hrest : Forall (fun x => nth s U 0 < x)
                           (flat_map (roots U P) (seq (S s) k))).
    { eapply Forall_impl; [|exact IH2]. cbn. intros x Hx. lra. }
    unfold roots at 1 3. destruct (seg U P s) as [[r|]|e] eqn:E; cbn [app];
      try (split; assumption).
    destruct (Hroot s r) as [Hr1 Hr2]; [lia | assumption |].
    split.
    + constructor; [assumption|].
      eapply Forall_impl; [|exact IH2]. cbn. intros x Hx. lra.
    + constructor; assumption.
Qed.

(** C3 (as the code has it).  For every strategy a program can build whose
    strikes are not negative and on which [stat] returns, every value of the
    returned [break_even] list is a zero of the aggregate profit, and the
    list is strictly ascending. *)
Theorem C3_break_even_roots (self : Optionstat.t) (r : Stat) :
  Optionstat.reachable self ->
  Forall (fun k => 0 <= k) (Optionstat._strike_prices self) ->
  snd (Optionstat.stat self) = OK r ->
  Forall (fun x => exists q, Optionstat.total_profit self x = OK q /\ q == 0)
         (break_even r)
  /\ StronglySorted Qlt (break_even r).
Proof.
  intros Hreach H0 H. destruct (stat_ok_inv self r H) as [HS HT].
  destruct (stat_normal self HS HT) as (l & prev & last & M & m & _ & _ & _ & E).
  rewrite E in H. clear E.
  set (U := anchors (sort (Optionstat._strike_prices self))) in *.
  set (P := map (total self) U) in *.
  destruct (scan U P _ []) as [be|e] eqn:Es; [|discriminate].
  cbn [bind] in H. injection H as <-. cbn [break_even].
  apply scan_ok in Es. cbn [app] in Es. subst be.
  assert (HU : StronglySorted Qle U).
  { apply anchors_sorted; [apply sort_sorted|].
    eapply Permutation_Forall; [symmetry; apply sort_perm | assumption]. }
  assert (HK : Forall (fun leg => In (Leg._strike leg) U)
                      (Optionstat._option_trades self)).
  { apply Forall_forall. intros leg Hleg. unfold U, anchors. cbn [app]. right.
    apply in_or_app. left.
    eapply Permutation_in; [symmetry; apply sort_perm|].
    eapply Permutation_in; [apply reachable_strikes; assumption|].
    now apply in_map. }
  assert (HL : length P = length U) by (unfold P; apply length_map).
  split.
  - apply Forall_forall. intros x Hx. apply in_flat_map in Hx.
    destruct Hx as (j & Hj & Hx). apply in_seq0 in Hj.
    unfold roots in Hx. destruct (seg U P j) as [[x'|]|e] eqn:E;
      try contradiction.
    destruct Hx as [<-|[]]. rewrite HL in Hj.
    assert (Hj' : (S j < length U)%nat) by lia.
    destruct (seg_root self U j x' HU HK Hj' E) as [_ Hz].
    exists (total self x'). split; [now apply total_profit_ok | assumption].
  - apply (roots_ascending U P HU).
    + intros j x Hj E. now apply (seg_root self U j x HU HK).
    + rewrite HL. pose proof (length_anchors (sort (Optionstat._strike_prices self))).
      fold U in H. lia.
Qed.

Lemma C3_break_even_roots_witness :
  exists r,
    snd (Optionstat.stat bull_call_spread) = OK r
    /\ Forall (fun x => x == 103) (break_even r)
    /\ Forall (fun x => exists q,
                   Optionstat.total_profit bull_call_spread x = OK q /\ q == 0)
              (break_even r)
    /\ StronglySorted Qlt (break_even r).
Proof.
  eexists. split; [vm_compute; reflexivity|].
  split; [repeat constructor|].
  apply C3_break_even_roots.
  - apply (Optionstat.reach_add _ 110 2 (-1)%Z "Call").
    apply (Optionstat.reach_add _ 100 5 1%Z "Call").
    apply Optionstat.reach_init.
  - repeat constructor; discriminate.
  - reflexivity.
Defined.

(** C3, refuted as stated: with the strikes -5 and -10 the segment from the
    anchor 0 to the anchor -10 contains the kink at -5; [stat] returns a
    first break-even value (equal to -9) at which the aggregate profit is
    -50. *)
Lemma C3_negative_strikes_not_a_root :
  exists r x rest q,
    snd (Optionstat.stat negative_strikes) = OK r
    /\ break_even r = x :: rest /\ x == - (9)
    /\ Optionstat.total_profit negative_strikes x = OK q
    /\ q == - (50) /\ ~ q == 0.
Proof.
  do 4 eexists. split; [vm_compute; reflexivity|].
  split; [reflexivity|]. split; [reflexivity|].
  split; [vm_compute; reflexivity|]. split; [reflexivity | discriminate].
Qed.

(** * Further properties of the code *)

(** ** Leg.get_profit *)

Lemma payoff_position (leg : Leg.t) (u : Q) :
  Leg._position leg <> 0%Z ->
  payoff leg u == (intrinsic leg u - Leg._premium leg)
                  * inject_Z (Leg._position leg)
                  * inject_Z (Leg._contract_size leg).
Proof.
  intros Hpos. unfold payoff.
  assert (Hq : ~ inject_Z (Leg._position leg) == 0) by now rewrite inject_Z_zero.
  assert (Habs : inject_Z (Z.abs (Leg._position leg))
                 * inject_Z (Z.abs (Leg._position leg))
                 == inject_Z (Leg._position leg) * inject_Z (Leg._position leg)).
  { rewrite <- !inject_Z_mult. now rewrite Z.abs_square. }
  set (A := inject_Z (Z.abs (Leg._position leg))) in *.
  set (p := inject_Z (Leg._position leg)) in *.
  transitivity ((intrinsic leg u - Leg._premium leg) * (A * A) / p
                * inject_Z (Leg._contract_size leg)); [field; assumption|].
  rewrite Habs. field. assumption.
Qed.

Lemma intrinsic_nonneg (leg : Leg.t) (u : Q) : 0 <= intrinsic leg u.
Proof.
  unfold intrinsic, pymax. destruct (Qltb _ 0) eqn:E;
    [apply Qle_refl | now apply Qltb_ge in E].
Qed.

Lemma intrinsic_call (leg : Leg.t) (u : Q) :
  Leg._option_type leg = "Call"%string ->
  (Leg._strike leg <= u -> intrinsic leg u == u - Leg._strike leg)
  /\ (u <= Leg._strike leg -> intrinsic leg u == 0).
Proof.
  intros H. unfold intrinsic. rewrite H. cbn [String.eqb Ascii.eqb Bool.eqb].
  split; intros L; [apply pymax_pos | apply pymax_neg]; lra.
Qed.

Lemma intrinsic_put (leg : Leg.t) (u : Q) :
  Leg._option_type leg = "Put"%string ->
  (u <= Leg._strike leg -> intrinsic leg u == Leg._strike leg - u)
  /\ (Leg._strike leg <= u -> intrinsic leg u == 0).
Proof.
  intros H. unfold intrinsic. rewrite H. cbn [String.eqb Ascii.eqb Bool.eqb].
  split; intros L; [apply pymax_pos | apply pymax_neg]; lra.
Qed.

(** X1.  When the position is not zero, [get_profit] returns
    [(intrinsic - premium) * position * contract_size]: the sign and the
    magnitude that the source multiplies separately are the position itself.
    For a call the intrinsic value is [underlying - strike] above the strike
    and [0] below; for a put it is [strike - underlying] below the strike and
    [0] above. *)
Theorem X1_get_profit_closed_form (leg : Leg.t) (u : Q) :
  Leg._position leg <> 0%Z ->
  exists q,
    Leg.get_profit leg u = OK q
    /\ (Leg._option_type leg = "Call"%string ->
        (Leg._strike leg <= u ->
         q == (u - Leg._strike leg - Leg._premium leg)
              * inject_Z (Leg._position leg) * inject_Z (Leg._contract_size leg))
        /\ (u <= Leg._strike leg ->
            q == - Leg._premium leg
                 * inject_Z (Leg._position leg) * inject_Z (Leg._contract_size leg)))
    /\ (Leg._option_type leg = "Put"%string ->
        (u <= Leg._strike leg ->
         q == (Leg._strike leg - u - Leg._premium leg)
              * inject_Z (Leg._position leg) * inject_Z (Leg._contract_size leg))
        /\ (Leg._strike leg <= u ->
            q == - Leg._premium leg
                 * inject_Z (Leg._position leg) * inject_Z (Leg._contract_size leg))).
Proof.
  intros Hpos. exists (payoff leg u). split; [now apply get_profit_ok|].
  split; intros Hty.
  - destruct (intrinsic_call leg u Hty) as [H1 H2].
    split; intros L; rewrite payoff_position by assumption;
      [rewrite H1 by assumption | rewrite H2 by assumption]; ring.
  - destruct (intrinsic_put leg u Hty) as [H1 H2].
    split; intros L; rewrite payoff_position by assumption;
      [rewrite H1 by assumption | rewrite H2 by assumption]; ring.
Qed.

Lemma X1_get_profit_closed_form_witness :
  exists q, Leg.get_profit (Leg.__init__ 50 3 2 "Put" 100) 40 = OK q
            /\ q == 1400.
Proof.
  destruct (X1_get_profit_closed_form (Leg.__init__ 50 3 2 "Put" 100) 40)
    as (q & Hq & _ & HP); [discriminate|].
  exists q. split; [assumption|].
  destruct (HP eq_refl) as [H _]. rewrite H; [reflexivity | discriminate].
Defined.

(** X2.  [get_profit] raises exactly when the position is zero, whatever the
    option type and the underlying price, and the exception is the
    [ZeroDivisionError] of line 41. *)
Theorem X2_get_profit_raises_iff (leg : Leg.t) (u : Q) :
  ((exists e, Leg.get_profit leg u = Raise e) <-> Leg._position leg = 0%Z)
  /\ (forall e, Leg.get_profit leg u = Raise e -> e = ZeroDivisionError 41).
Proof.
  destruct (Z.eq_dec (Leg._position leg) 0) as [E|E].
  - rewrite (get_profit_zero leg u E). split.
    + split; [intros _; assumption | intros _; eexists; reflexivity].
    + now intros e [= <-].
  - rewrite (get_profit_ok leg u E). split.
    + split; [intros (e & He); discriminate | contradiction].
    + discriminate.
Qed.

(** X3.  The two sides of a trade: the leg with the opposite position has
    the opposite profit at every underlying price. *)
Theorem X3_opposite_profit (leg : Leg.t) (u : Q) :
  Leg._position leg <> 0%Z ->
  exists q q',
    Leg.get_profit leg u = OK q /\ Leg.get_profit (opposite leg) u = OK q'
    /\ q' == - q.
Proof.
  intros Hpos. exists (payoff leg u), (payoff (opposite leg) u).
  split; [now apply get_profit_ok|].
  assert (Hopp : Leg._position (opposite leg) <> 0%Z) by (cbn; lia).
  split; [now apply get_profit_ok|].
  rewrite !payoff_position by assumption.
  change (intrinsic (opposite leg) u) with (intrinsic leg u).
  cbn [opposite Leg._premium Leg._position Leg._contract_size].
  rewrite inject_Z_opp. ring.
Qed.

Lemma X3_opposite_profit_witness :
  exists q q',
    Leg.get_profit (Leg.__init__ 100 2 1 "Call" 100) 110 = OK q
    /\ Leg.get_profit (Leg.__init__ 100 2 (-1) "Call" 100) 110 = OK q'
    /\ q' == - q.
Proof.
  apply (X3_opposite_profit (Leg.__init__ 100 2 1 "Call" 100) 110).
  discriminate.
Defined.

Lemma inject_Z_nonneg (z : Z) : (0 <= z)%Z -> 0 <= inject_Z z.
Proof.
  intros H. unfold Qle. cbn. lia.
Qed.

(** X4.  The premium bounds a leg on one side: whatever the option type, a
    bought leg (positive position) never loses more than
    [premium * position * contract_size], and a sold leg (negative position)
    never gains more than [premium * |position| * contract_size]. *)
Theorem X4_premium_bounds_profit (leg : Leg.t) (u : Q) :
  Leg._position leg <> 0%Z -> (0 <= Leg._contract_size leg)%Z ->
  exists q,
    Leg.get_profit leg u = OK q
    /\ ((0 < Leg._position leg)%Z ->
        - Leg._premium leg * inject_Z (Leg._position leg)
          * inject_Z (Leg._contract_size leg) <= q)
    /\ ((Leg._position leg < 0)%Z ->
        q <= Leg._premium leg * inject_Z (Z.abs (Leg._position leg))
             * inject_Z (Leg._contract_size leg)).
Proof.
  intros Hpos Hcs. exists (payoff leg u). split; [now apply get_profit_ok|].
  pose proof (intrinsic_nonneg leg u) as Hi.
  pose proof (inject_Z_nonneg _ Hcs) as Hc.
  rewrite payoff_position by assumption.
  set (i := intrinsic leg u) in *. set (c := inject_Z (Leg._contract_size leg)) in *.
  split; intros Hs.
  - assert (Hp : 0 <= inject_Z (Leg._position leg)) by (apply inject_Z_nonneg; lia).
    set (p := inject_Z (Leg._position leg)) in *.
    assert (0 <= i * p * c) by (repeat apply Qmult_le_0_compat; assumption).
    lra.
  - rewrite Z.abs_neq by lia. rewrite inject_Z_opp.
    assert (Hp : 0 <= - inject_Z (Leg._position leg)).
    { rewrite <- inject_Z_opp. apply inject_Z_nonneg. lia. }
    set (p := inject_Z (Leg._position leg)) in *.
    assert (0 <= i * (- p) * c) by (repeat apply Qmult_le_0_compat; assumption).
    lra.
Qed.

Lemma X4_premium_bounds_profit_witness :
  exists q, Leg.get_profit (Leg.__init__ 100 2 (-3) "Call" 100) 90 = OK q
            /\ q <= 600.
Proof.
  destruct (X4_premium_bounds_profit (Leg.__init__ 100 2 (-3) "Call" 100) 90)
    as (q & Hq & _ & H); [discriminate | discriminate |].
  exists q. split; [assumption|].
  eapply Qle_trans; [apply H; reflexivity | discriminate].
Defined.

(** X5.  A bought call gains as the underlying rises and a bought put gains
    as it falls: for a positive position and a non-negative contract size,
    the profit of a call is non-decreasing and the profit of a put is
    non-increasing in the underlying price. *)
Theorem X5_profit_monotone (leg : Leg.t) (u v : Q) :
  (0 < Leg._position leg)%Z -> (0 <= Leg._contract_size leg)%Z -> u <= v ->
  exists q q',
    Leg.get_profit leg u = OK q /\ Leg.get_profit leg v = OK q'
    /\ (Leg._option_type leg = "Call"%string -> q <= q')
    /\ (Leg._option_type leg = "Put"%string -> q' <= q).
Proof.
  intros Hpos Hcs Huv. exists (payoff leg u), (payoff leg v).
  assert (Hne : Leg._position leg <> 0%Z) by lia.
  split; [now apply get_profit_ok|]. split; [now apply get_profit_ok|].
  rewrite !payoff_position by assumption.
  assert (Hp : 0 <= inject_Z (Leg._position leg)) by (apply inject_Z_nonneg; lia).
  pose proof (inject_Z_nonneg _ Hcs) as Hc.
  set (p := inject_Z (Leg._position leg)) in *.
  set (c := inject_Z (Leg._contract_size leg)) in *.
  assert (Hmono : forall a b, a <= b ->
            (a - Leg._premium leg) * p * c <= (b - Leg._premium leg) * p * c).
  { intros a b Hab.
    assert (0 <= (b - a) * p * c)
      by (repeat apply Qmult_le_0_compat; try assumption; lra).
    lra. }
  split; intros Hty; apply Hmono.
  - destruct (intrinsic_call leg u Hty) as [U1 U2].
    destruct (intrinsic_call leg v Hty) as [V1 V2].
    destruct (Qlt_le_dec u (Leg._strike leg)) as [L|L].
    + rewrite U2 by lra. apply intrinsic_nonneg.
    + rewrite U1, V1 by lra. lra.
  - destruct (intrinsic_put leg u Hty) as [U1 U2].
    destruct (intrinsic_put leg v Hty) as [V1 V2].
    destruct (Qlt_le_dec (Leg._strike leg) v) as [L|L].
    + rewrite V2 by lra. apply intrinsic_nonneg.
    + rewrite U1, V1 by lra. lra.
Qed.

Lemma X5_profit_monotone_witness :
  exists q q',
    Leg.get_profit (Leg.__init__ 100 2 1 "Call" 100) 95 = OK q
    /\ Leg.get_profit (Leg.__init__ 100 2 1 "Call" 100) 120 = OK q'
    /\ q <= q'.
Proof.
  destruct (X5_profit_monotone (Leg.__init__ 100 2 1 "Call" 100) 95 120)
    as (q & q' & Hq & Hq' & HC & _); [reflexivity | discriminate | discriminate |].
  exists q, q'. repeat split; try assumption. now apply HC.
Defined.

(** ** The aggregate profit and add_trade *)

Lemma sum_app (l l' : list Q) : sum (l ++ l') == sum l + sum l'.
Proof.
  induction l as [|x l IH]; cbn [app].
  - unfold sum at 2. cbn. ring.
  - rewrite !sum_cons, IH. ring.
Qed.

Lemma sum_perm (l l' : list Q) : Permutation l l' -> sum l == sum l'.
Proof.
  induction 1 as [|x l l' _ IH|x y l|l l' l'' _ IH1 _ IH2].
  - reflexivity.
  - now rewrite !sum_cons, IH.
  - rewrite !sum_cons. ring.
  - now rewrite IH1.
Qed.

(** X6.  [total_profit] is additive over [add_trade]: the empty strategy has
    profit [0] at every price, and after a leg of non-zero position is added
    the aggregate profit is the previous one plus the profit of the new
    leg. *)
Theorem X6_total_profit_additive (self : Optionstat.t) (strike premium : Q)
  (position : Z) (option_type : string) (u q : Q) :
  Optionstat.total_profit self u = OK q -> position <> 0%Z ->
  let leg := Leg.__init__ strike premium position option_type
                          (Optionstat._contract_size self) in
  exists q' ql,
    Leg.get_profit leg u = OK ql
    /\ Optionstat.total_profit
         (fst (Optionstat.add_trade self strike premium position option_type)) u
       = OK q'
    /\ q' == q + ql
    /\ Optionstat.total_profit
         (Optionstat.__init__ (Optionstat._contract_size self)) u = OK 0.
Proof.
  intros Hq Hpos leg.
  destruct (total_profit_cases self u) as [[HT E]|[_ E]]; rewrite E in Hq;
    [|discriminate].
  injection Hq as <-.
  set (self' := fst (Optionstat.add_trade self strike premium position option_type)).
  assert (HT' : tradable self').
  { unfold tradable, self'. cbn. apply Forall_app. split; [assumption|].
    repeat constructor. assumption. }
  exists (total self' u), (payoff leg u).
  split; [now apply get_profit_ok|]. split; [now apply total_profit_ok|].
  split; [|reflexivity].
  unfold total, self'. cbn [Optionstat.add_trade fst Optionstat._option_trades].
  rewrite map_app, sum_app. cbn [map]. rewrite sum_cons.
  change (sum []) with 0. unfold leg. ring.
Qed.

Lemma X6_total_profit_additive_witness :
  exists q' ql,
    Leg.get_profit (Leg.__init__ 110 2 (-1) "Call" 100) 120 = OK ql
    /\ Optionstat.total_profit bull_call_spread 120 = OK q'
    /\ q' == 1500 + ql.
Proof.
  destruct (X6_total_profit_additive
              (fst (Optionstat.add_trade (Optionstat.__init__ 100) 100 5 1 "Call"))
              110 2 (-1) "Call" 120 1500)
    as (q' & ql & H1 & H2 & H3 & _); [reflexivity | discriminate |].
  exists q', ql. repeat split; assumption.
Defined.

(** X7.  [total_profit] raises exactly when some leg of the strategy has a
    zero position, at every underlying price alike, and the exception is the
    [ZeroDivisionError] of line 41. *)
Theorem X7_total_profit_raises_iff (self : Optionstat.t) (u : Q) :
  ((exists e, Optionstat.total_profit self u = Raise e)
   <-> Exists (fun leg => Leg._position leg = 0%Z) (Optionstat._option_trades self))
  /\ (forall e, Optionstat.total_profit self u = Raise e ->
                e = ZeroDivisionError 41).
Proof.
  assert (Hdec : forall leg : Leg.t,
             {Leg._position leg <> 0%Z} + {~ Leg._position leg <> 0%Z}).
  { intros leg. destruct (Z.eq_dec (Leg._position leg) 0); [right | left]; lia. }
  destruct (total_profit_cases self u) as [[HT E]|[HN E]]; rewrite E.
  - split; [|discriminate]. split; [intros (e & He); discriminate|].
    intros HE. exfalso. apply Exists_exists in HE. destruct HE as (leg & Hin & H0).
    unfold tradable in HT. rewrite Forall_forall in HT. now apply (HT leg).
  - split; [|now intros e [= <-]]. split; [|intros _; eexists; reflexivity].
    intros _. apply (neg_Forall_Exists_neg Hdec) in HN.
    eapply Exists_impl; [|exact HN]. cbn. intros leg H. lia.
Qed.

(** X8.  The order in which the legs were added does not matter to the
    aggregate profit: two strategies whose legs are a permutation of each
    other have equal profits at every price. *)
Theorem X8_total_profit_permutation (a b : Optionstat.t) (u q : Q) :
  Permutation (Optionstat._option_trades a) (Optionstat._option_trades b) ->
  Optionstat.total_profit a u = OK q ->
  exists q', Optionstat.total_profit b u = OK q' /\ q' == q.
Proof.
  intros HP Hq.
  destruct (total_profit_cases a u) as [[HT E]|[_ E]]; rewrite E in Hq;
    [|discriminate].
  injection Hq as <-.
  assert (HT' : tradable b) by (eapply Permutation_Forall; eassumption).
  exists (total b u). split; [now apply total_profit_ok|].
  unfold total. apply sum_perm. apply Permutation_map. now symmetry.
Qed.

Lemma X8_total_profit_permutation_witness :
  exists q', Optionstat.total_profit spread_high_first 105 = OK q' /\ q' == 200.
Proof.
  apply (X8_total_profit_permutation bull_call_spread spread_high_first 105 200).
  - apply perm_swap.
  - reflexivity.
Defined.

(** X9.  Put-call parity: [n] calls bought and [n] puts sold at the same
    strike make a position whose profit is linear in the underlying price,
    [(underlying - strike - call_premium + put_premium) * n * contract_size],
    with no kink at the strike. *)
Theorem X9_synthetic_long_linear (contract_size : Z)
  (strike call_premium put_premium : Q) (n : Z) (u : Q) :
  n <> 0%Z ->
  exists q,
    Optionstat.total_profit
      (synthetic_long contract_size strike call_premium put_premium n) u = OK q
    /\ q == (u - strike - call_premium + put_premium)
            * inject_Z n * inject_Z contract_size.
Proof.
  intros Hn.
  set (self := synthetic_long contract_size strike call_premium put_premium n).
  assert (HT : tradable self) by (repeat constructor; cbn; lia).
  exists (total self u). split; [now apply total_profit_ok|].
  unfold total, self, synthetic_long. cbn [Optionstat.add_trade fst
    Optionstat._option_trades Optionstat.__init__ app map
    Optionstat._contract_size].
  rewrite !sum_cons. unfold sum. cbn [fold_left].
  rewrite !payoff_position by (cbn; lia).
  set (call := Leg.__init__ strike call_premium n "Call" contract_size).
  set (put := Leg.__init__ strike put_premium (- n) "Put" contract_size).
  destruct (intrinsic_call call u eq_refl) as [C1 C2].
  destruct (intrinsic_put put u eq_refl) as [P1 P2].
  cbn [Leg._strike Leg._premium Leg._position Leg._contract_size call put] in *.
  rewrite inject_Z_opp.
  destruct (Qlt_le_dec u strike) as [L|L].
  - rewrite C2, P1 by lra. ring.
  - rewrite C1, P2 by lra. ring.
Qed.

Lemma X9_synthetic_long_linear_witness :
  exists q,
    Optionstat.total_profit (synthetic_long 100 100 5 3 2) 90 = OK q
    /\ q == - (2400).
Proof.
  destruct (X9_synthetic_long_linear 100 100 5 3 2 90) as (q & Hq & E);
    [discriminate|].
  exists q. split; [assumption|]. rewrite E. reflexivity.
Defined.

(** X10.  Every object a program can build keeps its two lists in step:
    there are as many recorded strikes as legs, the recorded strikes are the
    strikes of the legs up to order, and every leg carries the contract size
    of the strategy. *)
Theorem X10_reachable_invariant (self : Optionstat.t) :
  Optionstat.reachable self ->
  length (Optionstat._strike_prices self) = length (Optionstat._option_trades self)
  /\ Permutation (map Leg._strike (Optionstat._option_trades self))
                 (Optionstat._strike_prices self)
  /\ Forall (fun leg => Leg._contract_size leg = Optionstat._contract_size self)
            (Optionstat._option_trades self).
Proof.
  intros H. split; [|split; [now apply reachable_strikes|]].
  - rewrite <- (Permutation_length (reachable_strikes self H)).
    apply length_map.
  - induction H as [cs | self k p pos ty _ IH | self _ IH]; cbn.
    + constructor.
    + apply Forall_app. split; [assumption | now repeat constructor].
    + assumption.
Qed.

Lemma X10_reachable_invariant_witness :
  length (Optionstat._strike_prices (fst (Optionstat.stat spread_high_first)))
  = length (Optionstat._option_trades (fst (Optionstat.stat spread_high_first))).
Proof.
  apply X10_reachable_invariant.
  apply Optionstat.reach_stat.
  apply (Optionstat.reach_add _ 100 5 1%Z "Call").
  apply (Optionstat.reach_add _ 110 2 (-1)%Z "Call").
  apply Optionstat.reach_init.
Defined.

(** ** _get_price_range *)

Lemma int_proper (x y : Q) : x == y -> int x = int y.
Proof.
  intros H. destruct (Qlt_le_dec x 0) as [L|L].
  - rewrite !int_ceiling by lra. now apply Qceiling_comp.
  - rewrite !int_floor by lra. now apply Qfloor_comp.
Qed.

Lemma is_min_perm (l l' : list Q) (m m' : Q) :
  Permutation l l' -> is_min m l -> is_min m' l' -> m == m'.
Proof.
  intros HP [Hin Hle] [Hin' Hle']. rewrite Forall_forall in Hle, Hle'.
  apply Qle_antisym.
  - apply Hle. eapply Permutation_in; [symmetry; eassumption | assumption].
  - apply Hle'. eapply Permutation_in; eassumption.
Qed.

Lemma is_max_perm (l l' : list Q) (M M' : Q) :
  Permutation l l' -> is_max M l -> is_max M' l' -> M == M'.
Proof.
  intros HP [Hin Hle] [Hin' Hle']. rewrite Forall_forall in Hle, Hle'.
  apply Qle_antisym.
  - apply Hle'. eapply Permutation_in; eassumption.
  - apply Hle. eapply Permutation_in; [symmetry; eassumption | assumption].
Qed.

(** X11.  The default price range depends only on which strikes are
    recorded, not on their order: two strategies whose recorded strikes are
    a permutation of each other get the same answer from [_get_price_range]
    (the same pair, or the same exception).  In particular the in-place sort
    of [stat] does not change it. *)
Theorem X11_price_range_permutation :
  (forall a b : Optionstat.t,
      Permutation (Optionstat._strike_prices a) (Optionstat._strike_prices b) ->
      Optionstat._get_price_range a = Optionstat._get_price_range b)
  /\ (forall self : Optionstat.t,
         Optionstat._get_price_range (fst (Optionstat.stat self))
         = Optionstat._get_price_range self).
Proof.
  assert (H : forall a b : Optionstat.t,
             Permutation (Optionstat._strike_prices a) (Optionstat._strike_prices b) ->
             Optionstat._get_price_range a = Optionstat._get_price_range b).
  { intros a b HP. unfold Optionstat._get_price_range.
    destruct (Optionstat._strike_prices a) as [|k l] eqn:Ea.
    { apply Permutation_nil in HP. now rewrite HP. }
    assert (Ha : k :: l <> []) by discriminate.
    assert (Hb : Optionstat._strike_prices b <> []).
    { intros E. rewrite E in HP. symmetry in HP.
      now apply Permutation_nil in HP. }
    destruct (min_list_spec 76 _ Ha) as (m & Em & Hm).
    destruct (max_list_spec 77 _ Ha) as (M & EM & HM).
    destruct (min_list_spec 76 _ Hb) as (m' & Em' & Hm').
    destruct (max_list_spec 77 _ Hb) as (M' & EM' & HM').
    rewrite Em, EM, Em', EM'. cbn [bind].
    pose proof (is_min_perm _ _ m m' HP Hm Hm') as E1.
    pose proof (is_max_perm _ _ M M' HP HM HM') as E2.
    do 2 f_equal; apply int_proper; [now rewrite E1 | now rewrite E2]. }
  split; [exact H|].
  intros self. apply H. cbn. apply sort_perm.
Qed.

Lemma X11_price_range_permutation_witness :
  Optionstat._get_price_range spread_high_first
  = Optionstat._get_price_range bull_call_spread.
Proof.
  apply (proj1 X11_price_range_permutation). apply perm_swap.
Defined.

(** X12.  When no strike is negative, the default price range starts at or
    below every strike and at or above zero, its lower bound does not exceed
    its upper bound, and every strike is below the upper bound plus one.  The
    upper bound itself can be below the greatest strike, since it is rounded
    down; it is above every strike as soon as some strike is at least 10. *)
Theorem X12_price_range_brackets (self : Optionstat.t) (lo hi : Z) :
  Forall (fun k => 0 <= k) (Optionstat._strike_prices self) ->
  Optionstat._get_price_range self = OK (lo, hi) ->
  (0 <= lo)%Z /\ (lo <= hi)%Z
  /\ Forall (fun k => inject_Z lo <= k /\ k < inject_Z (hi + 1))
            (Optionstat._strike_prices self)
  /\ (Exists (fun k => 10 <= k) (Optionstat._strike_prices self) ->
      Forall (fun k => k < inject_Z hi) (Optionstat._strike_prices self)).
Proof.
  intros H0 H. unfold Optionstat._get_price_range in H.
  destruct (Optionstat._strike_prices self) as [|k0 l] eqn:ES; [discriminate|].
  assert (HS : k0 :: l <> []) by discriminate.
  destruct (min_list_spec 76 _ HS) as (m & Em & Hm & Hmle).
  destruct (max_list_spec 77 _ HS) as (M & EM & HM & HMle).
  rewrite Em, EM in H. cbn [bind] in H. injection H as <- <-.
  rewrite Forall_forall in H0, Hmle, HMle.
  assert (Hm0 : 0 <= m) by now apply H0.
  assert (HM0 : 0 <= M) by now apply H0.
  assert (HmM : m <= M) by now apply HMle.
  unfold PRICE_RANGE_PCT.
  rewrite !int_floor by nra.
  set (x := m * (1 - (1 # 10))). set (y := M * (1 + (1 # 10))).
  pose proof (Qfloor_le x) as Fx. pose proof (Qlt_floor y) as Fy.
  repeat split.
  - change 0%Z with (Qfloor 0). apply Qfloor_resp_le. unfold x. nra.
  - apply Qfloor_resp_le. unfold x, y. nra.
  - apply Forall_forall. intros k Hk. specialize (Hmle k Hk).
    specialize (HMle k Hk). unfold x, y in *. split; nra.
  - intros HE. apply Exists_exists in HE. destruct HE as (k1 & Hk1 & H10).
    pose proof (HMle k1 Hk1) as HM10.
    apply Forall_forall. intros k Hk. specialize (HMle k Hk).
    rewrite inject_Z_plus in Fy. unfold y in *. change (inject_Z 1) with 1 in Fy.
    nra.
Qed.

Lemma X12_price_range_brackets_witness :
  (0 <= 81)%Z /\ (81 <= 121)%Z
  /\ Forall (fun k => inject_Z 81 <= k /\ k < inject_Z (121 + 1))
            (Optionstat._strike_prices three_strikes).
Proof.
  destruct (X12_price_range_brackets three_strikes 81 121) as (H1 & H2 & H3 & _).
  - repeat constructor; discriminate.
  - reflexivity.
  - repeat split; assumption.
Defined.

(** ** stat: repeated calls, outcome and shape of the result *)

Lemma insert_le_head (x y : Q) (l : list Q) :
  x <= y -> insert x (y :: l) = x :: y :: l.
Proof.
  intros H. cbn. apply Qltb_ge in H. now rewrite H.
Qed.

Lemma sort_sorted_id (l : list Q) : StronglySorted Qle l -> sort l = l.
Proof.
  induction 1 as [|x l Hs IH Hx]; [reflexivity|].
  change (sort (x :: l)) with (insert x (sort l)).
  rewrite IH. destruct l as [|y l]; [reflexivity|].
  apply insert_le_head. now inversion Hx.
Qed.

(** X13.  Calling [stat] twice is the same as calling it once: the second
    call leaves the object as the first call left it and gives the same
    result (the same statistics, or the same exception). *)
Theorem X13_stat_idempotent (self : Optionstat.t) :
  Optionstat.stat (fst (Optionstat.stat self))
  = (fst (Optionstat.stat self), snd (Optionstat.stat self)).
Proof.
  unfold Optionstat.stat. cbn [fst snd Optionstat._option_trades
    Optionstat._strike_prices Optionstat._contract_size].
  now rewrite (sort_sorted_id _ (sort_sorted _)).
Qed.

Lemma length_roots (U P : list Q) (js : list nat) :
  (length (flat_map (roots U P) js) <= length js)%nat.
Proof.
  induction js as [|j js IH]; cbn [flat_map]; [apply Nat.le_refl|].
  rewrite length_app. unfold roots at 1.
  destruct (seg U P j) as [[r|]|e]; cbn; lia.
Qed.

(** X14.  The shape of what [stat] returns: [legs] is the number of recorded
    strikes; [max_profit] is never [-inf] and [max_loss] is never [+inf];
    they are never both infinite, because only the slope above the highest
    strike is examined; when both are finite the loss does not exceed the
    profit; and there is at most one break-even point per pair of adjacent
    anchors, so at most [legs + 1] of them. *)
Theorem X14_stat_shape (self : Optionstat.t) (r : Stat) :
  snd (Optionstat.stat self) = OK r ->
  legs r = length (Optionstat._strike_prices self)
  /\ max_profit r <> NegInf /\ max_loss r <> Inf
  /\ ~ (max_profit r = Inf /\ max_loss r = NegInf)
  /\ (forall M m, max_profit r = Fin M -> max_loss r = Fin m -> m <= M)
  /\ (length (break_even r) <= legs r + 1)%nat.
Proof.
  intros H. destruct (stat_ok_inv self r H) as [HS HT].
  destruct (stat_normal self HS HT) as (l & prev & last & M & m & EP & HM & Hm & E).
  rewrite E in H. clear E.
  set (U := anchors (sort (Optionstat._strike_prices self))) in *.
  set (P := map (total self) U) in *.
  destruct (scan U P _ []) as [be|e] eqn:Es; [|discriminate].
  cbn [bind] in H. injection H as <-.
  cbn [legs max_profit max_loss break_even].
  apply scan_ok in Es. cbn [app] in Es.
  split; [reflexivity|].
  split; [destruct (Qltb prev last); discriminate|].
  split; [destruct (Qltb last prev); discriminate|].
  split; [|split].
  - intros [H1 H2].
    destruct (Qltb prev last) eqn:E1; [|discriminate].
    destruct (Qltb last prev) eqn:E2; [|discriminate].
    apply Qltb_lt in E1, E2. lra.
  - intros M' m' H1 H2.
    destruct (Qltb prev last); [discriminate|].
    destruct (Qltb last prev); [discriminate|].
    injection H1 as <-. injection H2 as <-.
    destruct HM as [HMin HMle], Hm as [Hmin Hmle].
    rewrite Forall_forall in HMle. now apply HMle.
  - subst be. etransitivity; [apply length_roots|].
    rewrite length_seq. unfold P. rewrite length_map. unfold U.
    rewrite length_anchors, length_sort. lia.
Qed.

Lemma X14_stat_shape_witness :
  exists r,
    snd (Optionstat.stat bull_call_spread) = OK r
    /\ legs r = 2%nat /\ (length (break_even r) <= legs r + 1)%nat.
Proof.
  eexists. split; [vm_compute; reflexivity|].
  lazymatch goal with
  | |- legs ?r = _ /\ _ =>
      destruct (X14_stat_shape bull_call_spread r) as (_ & _ & _ & _ & _ & H);
      [reflexivity|]
  end.
  split; [reflexivity | exact H].
Defined.


(** ** stat: what the extreme values and the break-even points mean *)

Lemma affine_le (f : Q -> Q) (a b u B : Q) :
  Proper (Qeq ==> Qeq) f -> affine_on a b f -> a <= u <= b ->
  f a <= B -> f b <= B -> f u <= B.
Proof.
  intros Hf Haff Hu Ha Hb. destruct (Qlt_le_dec a b) as [L|L].
  - specialize (Haff u Hu). apply Qnot_lt_le. intros Hlt.
    assert (0 <= (b - u) * (B - f a)) by (apply Qmult_le_0_compat; lra).
    assert (0 <= (u - a) * (B - f b)) by (apply Qmult_le_0_compat; lra).
    assert (0 < (b - a) * (f u - B)) by (apply Qmult_lt_0_compat; lra).
    lra.
  - assert (E : u == a) by lra. now rewrite E.
Qed.

Lemma affine_ge (f : Q -> Q) (a b u B : Q) :
  Proper (Qeq ==> Qeq) f -> affine_on a b f -> a <= u <= b ->
  B <= f a -> B <= f b -> B <= f u.
Proof.
  intros Hf Haff Hu Ha Hb. destruct (Qlt_le_dec a b) as [L|L].
  - specialize (Haff u Hu). apply Qnot_lt_le. intros Hlt.
    assert (0 <= (b - u) * (f a - B)) by (apply Qmult_le_0_compat; lra).
    assert (0 <= (u - a) * (f b - B)) by (apply Qmult_le_0_compat; lra).
    assert (0 < (b - a) * (B - f u)) by (apply Qmult_lt_0_compat; lra).
    lra.
  - assert (E : u == a) by lra. now rewrite E.
Qed.

(** A point between the first and the [n]-th element of a list lies between
    two neighbours. *)
Lemma bracket (U : list Q) (u : Q) (n : nat) :
  (1 <= n)%nat -> nth 0 U 0 <= u -> u <= nth n U 0 ->
  exists j, (j < n)%nat /\ nth j U 0 <= u <= nth (S j) U 0.
Proof.
  intros Hn H0. induction n as [|n IH]; [lia|]. intros Hu.
  destruct (Qlt_le_dec (nth n U 0) u) as [L|L].
  - exists n. split; [lia | lra].
  - destruct n as [|n].
    + exists 0%nat. split; [lia | lra].
    + destruct IH as (j & Hj & Hb); [lia | assumption |].
      exists j. split; [lia | assumption].
Qed.

Lemma anchors_tail (S : list Q) :
  S <> [] ->
  anchors S = (0 :: removelast S) ++ [last S 0; last S 0 + 1].
Proof.
  intros H. unfold anchors. cbn [app]. f_equal.
  rewrite (app_removelast_last 0 H) at 1. now rewrite <- app_assoc.
Qed.

Lemma last_two_inj (l l' : list Q) (a b a' b' : Q) :
  l ++ [a; b] = l' ++ [a'; b'] -> a = a' /\ b = b'.
Proof.
  intros H.
  change (l ++ [a; b]) with (l ++ [a] ++ [b]) in H.
  change (l' ++ [a'; b']) with (l' ++ [a'] ++ [b']) in H.
  rewrite !app_assoc in H. apply app_inj_tail in H. destruct H as [H ->].
  apply app_inj_tail in H. destruct H as [_ ->]. now split.
Qed.

Lemma nth_anchors_0 (S : list Q) : nth 0 (anchors S) 0 = 0.
Proof.
  reflexivity.
Qed.

Lemma nth_anchors_last (S : list Q) :
  nth (length S + 1) (anchors S) 0 = last S 0 + 1.
Proof.
  unfold anchors. cbn [app]. rewrite Nat.add_comm. cbn [Nat.add nth].
  now rewrite nth_middle.
Qed.

(** Opposite signs at two anchors of distinct prices: a root is appended. *)
Lemma segment_cross (uj ui pj pi : Q) :
  ~ ui == uj -> (pj < 0 /\ 0 < pi) \/ (0 < pj /\ pi < 0) ->
  exists x, segment uj ui pj pi = OK (Some x).
Proof.
  intros Hu Hs. unfold segment.
  assert (Hne : ~ pi == pj) by (intros E; lra).
  apply Qeq_bool_false in Hne. rewrite Hne.
  rewrite !pydiv_ok by (rewrite Qabs_zero; lra). cbn [bind].
  assert (Hsign : ~ pi / Qabs pi == pj / Qabs pj).
  { destruct Hs as [[Hj Hi]|[Hj Hi]].
    - rewrite (sign_pos pi), (sign_neg pj) by assumption. discriminate.
    - rewrite (sign_neg pi), (sign_pos pj) by assumption. discriminate. }
  apply Qeq_bool_false in Hsign. rewrite Hsign.
  rewrite (pydiv_ok 148) by lra. cbn [bind].
  rewrite pydiv_ok; [eexists; reflexivity|].
  intros Hg. apply Qeq_bool_false in Hne. apply Hne.
  assert (H : pi - pj == (pi - pj) / (ui - uj) * (ui - uj)) by (field; lra).
  rewrite Hg in H. lra.
Qed.

Section ReachableStrategy.

Variable self : Optionstat.t.
Hypothesis Hreach : Optionstat.reachable self.
Hypothesis HS : Optionstat._strike_prices self <> [].

Let strikes := sort (Optionstat._strike_prices self).
Let top := last strikes 0.

Lemma strikes_nonempty : strikes <> [].
Proof.
  intros E. now apply sort_nil in E.
Qed.

(** No leg has its strike above the highest recorded strike. *)
Lemma legs_below_top :
  Forall (fun leg => Leg._strike leg <= top) (Optionstat._option_trades self).
Proof.
  apply Forall_forall. intros leg Hleg.
  pose proof (sorted_le_last strikes (sort_sorted _)) as H.
  rewrite Forall_forall in H. apply H.
  eapply Permutation_in; [symmetry; apply sort_perm|].
  eapply Permutation_in; [apply reachable_strikes; assumption|].
  now apply in_map.
Qed.

(** Above the highest strike the aggregate profit continues with the slope
    measured between the last two anchors. *)
Lemma tail_value (u : Q) :
  top + 1 <= u ->
  total self u
  == total self top + (u - top) * (total self (top + 1) - total self top).
Proof.
  intros Hu.
  assert (Haff : affine_on top u (total self)).
  { apply total_affine; [lra|].
    eapply Forall_impl; [|apply legs_below_top]. cbn. intros leg H. now left. }
  specialize (Haff (top + 1)). lra.
Qed.

(** What [stat] computes, with the last two anchor profits made explicit. *)
Lemma stat_normal_tail :
  tradable self ->
  let U := anchors strikes in
  let P := map (total self) U in
  exists M m,
    is_max M P /\ is_min m P
    /\ snd (Optionstat.stat self)
       = (be <- scan U P (seq 0 (length P - 1)) [] ;;
          OK {| legs := length (Optionstat._strike_prices self);
                max_profit := if Qltb (total self top) (total self (top + 1))
                              then Inf else Fin M;
                max_loss := if Qltb (total self (top + 1)) (total self top)
                            then NegInf else Fin m;
                break_even := be |}).
Proof.
  intros HT U P.
  destruct (stat_normal self HS HT) as (l & prev & last & M & m & EP & HM & Hm & E).
  exists M, m. split; [assumption|]. split; [assumption|].
  rewrite E. fold strikes. fold U. fold P.
  assert (EU : P = map (total self) (0 :: removelast strikes)
                   ++ [total self top; total self (top + 1)]).
  { unfold P, U. rewrite (anchors_tail strikes strikes_nonempty).
    now rewrite map_app. }
  fold strikes in EP. fold U in EP. fold P in EP.
  rewrite EP in EU. apply last_two_inj in EU. destruct EU as [-> ->].
  reflexivity.
Qed.

Hypothesis H0 : Forall (fun k => 0 <= k) (Optionstat._strike_prices self).

Lemma anchors_sorted_self : StronglySorted Qle (anchors strikes).
Proof.
  apply anchors_sorted; [apply sort_sorted|].
  eapply Permutation_Forall; [symmetry; apply sort_perm | assumption].
Qed.

Lemma legs_in_anchors :
  Forall (fun leg => In (Leg._strike leg) (anchors strikes))
         (Optionstat._option_trades self).
Proof.
  apply Forall_forall. intros leg Hleg. unfold anchors. cbn [app]. right.
  apply in_or_app. left.
  eapply Permutation_in; [symmetry; apply sort_perm|].
  eapply Permutation_in; [apply reachable_strikes; assumption|].
  now apply in_map.
Qed.

Lemma top_nonneg : 0 <= top.
Proof.
  apply last_nonneg.
  eapply Permutation_Forall; [symmetry; apply sort_perm | assumption].
Qed.

(** Between the first and the last anchor the aggregate profit stays within
    any bounds that hold at the anchors. *)
Lemma between_anchors (u : Q) :
  0 <= u <= top + 1 ->
  exists j, (S j < length (anchors strikes))%nat
            /\ nth j (anchors strikes) 0 <= u <= nth (S j) (anchors strikes) 0
            /\ affine_on (nth j (anchors strikes) 0)
                         (nth (S j) (anchors strikes) 0) (total self).
Proof.
  intros Hu.
  destruct (bracket (anchors strikes) u (length strikes + 1)) as (j & Hj & Hb).
  - lia.
  - rewrite nth_anchors_0. lra.
  - rewrite nth_anchors_last. fold top. lra.
  - exists j. rewrite length_anchors. split; [lia|]. split; [assumption|].
    apply total_affine; [lra|].
    eapply Forall_impl; [|apply legs_in_anchors]. cbv beta. intros leg Hin.
    apply no_element_inside;
      [apply anchors_sorted_self | rewrite length_anchors; lia | assumption].
Qed.

Lemma anchor_profit_in (j : nat) :
  (j < length (anchors strikes))%nat ->
  In (total self (nth j (anchors strikes) 0))
     (map (total self) (anchors strikes)).
Proof.
  intros Hj. apply in_map. now apply nth_In.
Qed.


End ReachableStrategy.

Lemma bull_call_spread_reachable : Optionstat.reachable bull_call_spread.
Proof.
  apply (Optionstat.reach_add _ 110 2 (-1)%Z "Call").
  apply (Optionstat.reach_add _ 100 5 1%Z "Call").
  apply Optionstat.reach_init.
Qed.


Lemma last_in (l : list Q) : l <> [] -> In (last l 0) l.
Proof.
  intros H. rewrite (app_removelast_last 0 H) at 2.
  apply in_or_app. right. now left.
Qed.





(** ** C2: maximum profit and maximum loss *)

(** C2 (as the code has it).  Whenever [stat] returns on a non-empty
    strategy: the anchor prices are [0], the recorded strikes in ascending
    order and [top + 1], where [top] is a greatest recorded strike; with
    [prev] the aggregate profit at [top] (the second-to-last anchor) and
    [last] the aggregate profit at [top + 1] (the last anchor),
    [max_profit] is [+inf] exactly when [prev < last] and is otherwise a
    greatest anchor profit, and [max_loss] is [-inf] exactly when
    [last < prev] and is otherwise a least anchor profit. *)
Theorem C2_max_profit_max_loss (self : Optionstat.t) (r : Stat) :
  Optionstat._strike_prices self <> [] ->
  snd (Optionstat.stat self) = OK r ->
  exists top U P l prev last,
    is_max top (Optionstat._strike_prices self)
    /\ StronglySorted Qle (sort (Optionstat._strike_prices self))
    /\ Permutation (sort (Optionstat._strike_prices self))
                   (Optionstat._strike_prices self)
    /\ U = [0] ++ sort (Optionstat._strike_prices self) ++ [top + 1]
    /\ anchor_prices self = OK U
    /\ anchor_profits self = OK P
    /\ Forall2 (fun u p => Optionstat.total_profit self u = OK p) U P
    /\ P = l ++ [prev; last]
    /\ Optionstat.total_profit self top = OK prev
    /\ Optionstat.total_profit self (top + 1) = OK last
    /\ (max_profit r = Inf <-> prev < last)
    /\ (~ prev < last -> exists M, max_profit r = Fin M /\ is_max M P)
    /\ (max_loss r = NegInf <-> last < prev)
    /\ (~ last < prev -> exists m, max_loss r = Fin m /\ is_min m P).
Proof.
  intros HS H. destruct (stat_ok_inv self r H) as [_ HT].
  destruct (stat_normal_tail self HS HT) as (M & m & HM & Hm & E).
  rewrite E in H. clear E.
  set (strikes := sort (Optionstat._strike_prices self)) in *.
  set (top := last strikes 0) in *.
  set (U := anchors strikes) in *. set (P := map (total self) U) in *.
  destruct (scan U P _ []) as [be|e]; [|discriminate].
  cbn [bind] in H. injection H as <-. cbn [max_profit max_loss].
  assert (Hne : strikes <> []) by (intros E; now apply sort_nil in E).
  assert (EP : P = map (total self) (0 :: removelast strikes)
                   ++ [total self top; total self (top + 1)]).
  { unfold P, U. rewrite (anchors_tail strikes Hne). now rewrite map_app. }
  exists top, U, P, (map (total self) (0 :: removelast strikes)),
    (total self top), (total self (top + 1)).
  split.
  { split.
    - eapply Permutation_in; [apply sort_perm|]. now apply last_in.
    - eapply Permutation_Forall; [apply sort_perm|].
      apply sorted_le_last, sort_sorted. }
  split; [apply sort_sorted|]. split; [apply sort_perm|].
  split; [reflexivity|].
  split; [unfold anchor_prices; now apply underlying_prices_ok|].
  split; [now apply anchor_profits_ok|].
  split; [apply mapM_Forall2; now apply mapM_total_profit|].
  split; [assumption|].
  split; [now apply total_profit_ok|]. split; [now apply total_profit_ok|].
  destruct (Qltb (total self top) (total self (top + 1))) eqn:E1,
           (Qltb (total self (top + 1)) (total self top)) eqn:E2;
    first [apply Qltb_lt in E1 | apply Qltb_ge in E1];
    first [apply Qltb_lt in E2 | apply Qltb_ge in E2];
    repeat split; try tauto; try discriminate; try lra; intros _;
    first [now exists M | now exists m].
Qed.

Lemma C2_max_profit_max_loss_witness :
  exists r,
    snd (Optionstat.stat bull_call_spread) = OK r
    /\ max_profit r = Fin 700 /\ max_loss r = Fin (- (300))
    /\ exists top U P l prev last,
        is_max top (Optionstat._strike_prices bull_call_spread)
        /\ StronglySorted Qle (sort (Optionstat._strike_prices bull_call_spread))
        /\ Permutation (sort (Optionstat._strike_prices bull_call_spread))
                       (Optionstat._strike_prices bull_call_spread)
        /\ U = [0] ++ sort (Optionstat._strike_prices bull_call_spread)
                   ++ [top + 1]
        /\ anchor_prices bull_call_spread = OK U
        /\ anchor_profits bull_call_spread = OK P
        /\ Forall2 (fun u p => Optionstat.total_profit bull_call_spread u = OK p)
                   U P
        /\ P = l ++ [prev; last]
        /\ Optionstat.total_profit bull_call_spread top = OK prev
        /\ Optionstat.total_profit bull_call_spread (top + 1) = OK last
        /\ (max_profit r = Inf <-> prev < last)
        /\ (~ prev < last -> exists M, max_profit r = Fin M /\ is_max M P)
        /\ (max_loss r = NegInf <-> last < prev)
        /\ (~ last < prev -> exists m, max_loss r = Fin m /\ is_min m P).
Proof.
  eexists. split; [vm_compute; reflexivity|].
  split; [reflexivity|]. split; [reflexivity|].
  apply C2_max_profit_max_loss; [discriminate | reflexivity].
Defined.

(** C2, refuted as stated: for the long call of strike 100 and premium 1
    the anchor profits are [-100, -100, 0], so the profit at the last anchor
    strictly exceeds the profit at the second-to-last one; yet [stat] raises
    at the sign test of line 144 and reports no [max_profit] at all. *)
Lemma C2_tail_up_stat_raises :
  Optionstat._strike_prices long_call_premium_1 <> []
  /\ anchor_prices long_call_premium_1 = OK [0; 100; 100 + 1]
  /\ anchor_profits long_call_premium_1 = OK [- (100); - (100); 0]
  /\ - (100) < 0
  /\ snd (Optionstat.stat long_call_premium_1) = Raise (ZeroDivisionError 144)
  /\ ~ (exists r, snd (Optionstat.stat long_call_premium_1) = OK r
                  /\ max_profit r = Inf).
Proof.
  split; [discriminate|]. split; [reflexivity|]. split; [reflexivity|].
  split; [reflexivity|]. split; [reflexivity|].
  intros (r & Hr & _). discriminate Hr.
Qed.
